(** * Customized Children's Story Generator: the UI controller of src/index.tsx

    A shallow embedding of the [App] component: the React state it keeps,
    the three event handlers ([handleGenerateStory], [handleReadAloud],
    [handleStopReading]), the two utterance callbacks and the pure
    [highlightName] helper, with the parts of the JavaScript runtime they
    call ([String.prototype.trim], [toLowerCase], [split] on a regular
    expression, template-literal interpolation of a number).

    A JavaScript string is a sequence of code units; here it is a [string]
    whose characters stand for the code units 0..255 (the Latin-1 range), on
    which white space and the case mappings are written out in full.

    The strings of the development are those over the code units 0..255;
    every statement about texts and names is a statement about such
    strings.

    React renders again between two events, and a memoized handler reads
    the cells of the render it was made at: [handleReadAloud] takes that
    render beside the world it is called in. What the constructor of the
    generation client and the service do is the attempt the generation
    handler is given. *)

From Stdlib Require Import Bool Arith ZArith List String Ascii Lia.
From Stdlib Require Import Numbers.DecimalString.
Import ListNotations.
Open Scope string_scope.

(** ** The JavaScript runtime the component relies on *)

Module JS.

(** [!s] on a string is true exactly for the empty string, so a string is
    truthy when it is not empty. *)
Definition truthy (s : string) : bool :=
  match s with
  | EmptyString => false
  | String _ _ => true
  end.

(** [`${n}`] for an integral Number: its decimal digits, with a leading
    minus sign below zero. *)
Definition numberToString (n : Z) : string :=
  NilZero.string_of_int (Z.to_int n).

(** [s.includes(t)], as a proposition. *)
Definition includes (s t : string) : Prop :=
  exists before after, s = before ++ t ++ after.

(** [s.startsWith(t)], as a proposition. *)
Definition startsWith (s t : string) : Prop :=
  exists after, s = t ++ after.

(** [parts.join('')]. *)
Definition join (parts : list string) : string :=
  fold_right append "" parts.

(** An exception value; only its message matters here. *)
Definition Error := string.

(** *** Code units, white space and case *)

Definition codeUnit (c : ascii) : N := N_of_ascii c.

(** The code units that [trim] removes: TAB, LF, VT, FF, CR, SPACE and
    NO-BREAK SPACE. *)
Definition isWhiteSpace (c : ascii) : bool :=
  let n := codeUnit c in
  ((9 <=? n) && (n <=? 13) || (n =? 32) || (n =? 160))%N.

Fixpoint trimStart (s : string) : string :=
  match s with
  | EmptyString => EmptyString
  | String c rest => if isWhiteSpace c then trimStart rest else s
  end.

Fixpoint trimEnd (s : string) : string :=
  match s with
  | EmptyString => EmptyString
  | String c rest =>
      match trimEnd rest with
      | EmptyString => if isWhiteSpace c then EmptyString
                       else String c EmptyString
      | kept => String c kept
      end
  end.

Definition trim (s : string) : string := trimEnd (trimStart s).

(** [toLowerCase] on one code unit: A-Z, and the capital letters of
    Latin-1 (U+00C0..U+00DE without the multiplication sign). *)
Definition toLowerCaseUnit (c : ascii) : ascii :=
  let n := codeUnit c in
  if ((65 <=? n) && (n <=? 90)
      || (192 <=? n) && (n <=? 222) && negb (n =? 215))%N
  then ascii_of_N (n + 32)
  else c.

Fixpoint toLowerCase (s : string) : string :=
  match s with
  | EmptyString => EmptyString
  | String c rest => String (toLowerCaseUnit c) (toLowerCase rest)
  end.

(** [s.substring(q)]: the code units of [s] from index [q] on. *)
Definition substringFrom (q : nat) (s : string) : string :=
  substring q (length s - q) s.

(** *** Regular expressions

    The fragment covered: pattern characters that stand for themselves,
    and capturing groups, nested at will. *)

Inductive Pattern :=
| Empty
| Char (c : ascii)
| Seq (a b : Pattern)
| Group (body : Pattern).

Record RegExp := {
  pattern : Pattern;
  global : bool;
  ignoreCase : bool
}.

(** The characters with a meaning of their own in a pattern. *)
Definition isSyntaxCharacter (c : ascii) : bool :=
  existsb (Ascii.eqb c)
    ["^"; "$"; "\"; "."; "*"; "+"; "?"; "("; ")"; "["; "]"; "{"; "}"; "|"]%char.

(** Reading a pattern, left to right; [enclosing] holds what was read of
    each group that is still open, innermost first, and [current] what
    was read of the innermost one. [None]: the constructor throws a
    SyntaxError (a parenthesis without its partner), or the pattern uses
    a syntax character other than the parentheses and lies outside the
    fragment. *)
Fixpoint parsePattern (source : string) (enclosing : list Pattern)
  (current : Pattern) : option Pattern :=
  match source with
  | EmptyString =>
      match enclosing with
      | [] => Some current
      | _ :: _ => None
      end
  | String c rest =>
      if Ascii.eqb c "(" then parsePattern rest (current :: enclosing) Empty
      else if Ascii.eqb c ")" then
        match enclosing with
        | [] => None
        | outer :: enclosing' =>
            parsePattern rest enclosing' (Seq outer (Group current))
        end
      else if isSyntaxCharacter c then None
      else parsePattern rest enclosing (Seq current (Char c))
  end.

Fixpoint hasFlag (flag : ascii) (flags : string) : bool :=
  match flags with
  | EmptyString => false
  | String c rest => Ascii.eqb c flag || hasFlag flag rest
  end.

(** [new RegExp(source, flags)] *)
Definition newRegExp (source flags : string) : option RegExp :=
  match parsePattern source [] Empty with
  | None => None
  | Some p => Some {| pattern := p;
                      global := hasFlag "g" flags;
                      ignoreCase := hasFlag "i" flags |}
  end.

(** Canonicalize of the language definition, for a regular expression
    that ignores case and is not in Unicode mode: the upper-case mapping
    of the code unit when that is again one code unit, and is not an
    ASCII one for a code unit outside ASCII. The micro sign and y with
    diaeresis map above U+00FF; the sharp s maps to two code units and
    stays. *)
Definition Canonicalize (c : ascii) : N :=
  let n := codeUnit c in
  if ((97 <=? n) && (n <=? 122))%N then (n - 32)%N
  else if ((224 <=? n) && (n <=? 254) && negb (n =? 247))%N then (n - 32)%N
  else if (n =? 181)%N then 924%N
  else if (n =? 255)%N then 376%N
  else n.

Definition unitMatches (ignoreCase : bool) (p c : ascii) : bool :=
  if ignoreCase then (Canonicalize p =? Canonicalize c)%N
  else Ascii.eqb p c.

(** Matching a pattern against [S] from index [x] on: the index the
    match ends at, with what the groups captured, in the order of their
    opening parentheses. *)
Fixpoint matchPattern (ignoreCase : bool) (r : Pattern) (S : string)
  (x : nat) : option (nat * list string) :=
  match r with
  | Empty => Some (x, [])
  | Char p =>
      match get x S with
      | Some c => if unitMatches ignoreCase p c then Some (x + 1, [])
                  else None
      | None => None
      end
  | Seq a b =>
      match matchPattern ignoreCase a S x with
      | None => None
      | Some (y, capturesA) =>
          match matchPattern ignoreCase b S y with
          | None => None
          | Some (e, capturesB) => Some (e, (capturesA ++ capturesB)%list)
          end
      end
  | Group body =>
      match matchPattern ignoreCase body S x with
      | None => None
      | Some (e, captures) => Some (e, substring x (e - x) S :: captures)
      end
  end.

(** One sticky [exec] of the splitter at [lastIndex]. *)
Definition exec (rx : RegExp) (S : string) (lastIndex : nat)
  : option (nat * list string) :=
  matchPattern (ignoreCase rx) (pattern rx) S lastIndex.

(** The loop of [RegExp.prototype[Symbol.split]], without a limit: [p] is
    where the piece being collected starts, [q] where a match is tried
    next. [None]: out of fuel. *)
Fixpoint splitLoop (fuel : nat) (rx : RegExp) (S : string) (p q : nat)
  : option (list string) :=
  let size := length S in
  if (q <? size)%nat then
    match fuel with
    | O => None
    | Datatypes.S fuel =>
        match exec rx S q with
        | None => splitLoop fuel rx S p (q + 1)
        | Some (lastIndex, captures) =>
            let e := Nat.min lastIndex size in
            if (e =? p)%nat then splitLoop fuel rx S p (q + 1)
            else
              match splitLoop fuel rx S e e with
              | None => None
              | Some A => Some (substring p (q - p) S :: (captures ++ A)%list)
              end
        end
    end
  else Some [substring p (size - p) S].

(** [S.split(rx)] *)
Definition split (S : string) (rx : RegExp) : option (list string) :=
  let size := length S in
  if (size =? 0)%nat then
    match exec rx S 0 with
    | Some _ => Some []
    | None => Some [S]
    end
  else splitLoop (2 * size) rx S 0 0.

(** [A.map((x, index) => f(x, index))] *)
Fixpoint mapFrom {A B : Type} (f : A -> nat -> B) (index : nat)
  (l : list A) : list B :=
  match l with
  | [] => []
  | x :: rest => f x index :: mapFrom f (index + 1) rest
  end.

Definition map {A B : Type} (f : A -> nat -> B) (l : list A) : list B :=
  mapFrom f 0 l.

(** [Number(s)] for a string that is the decimal form of an integer: that
    integer. [None]: any other string, outside of what is covered here. *)
Definition Number (s : string) : option Z :=
  match NilZero.int_of_string s with
  | Some d =>
      if (numberToString (Z.of_int d) =? s)%string then Some (Z.of_int d)
      else None
  | None => None
  end.

(** [[...Array(n)]]: [n] times [undefined]. *)
Definition Array (n : nat) : list unit := repeat tt n.

End JS.

(** ** The state of the component *)

(** [new SpeechSynthesisUtterance(text)]. Its two callbacks, [onend] and
    [onerror], are the functions [utterance_onend] and [utterance_onerror]
    below: the same for every utterance the component builds. *)
Record SpeechSynthesisUtterance := { utteranceText : string }.

(** The argument of [ai.models.generateContentStream]. *)
Record GenerateContentParameters := {
  model : string;
  contents : string;
  config_systemInstruction : string
}.

(** The seven [useState] cells and the [useRef] cell of [App]. *)
Record State := {
  st_name : string;
  st_age : Z;
  st_interests : string;
  st_story : string;
  st_isLoading : bool;
  st_isReading : bool;
  st_error : option string;
  st_utteranceRef : option SpeechSynthesisUtterance
}.

(** What the component reaches outside React: the generation service (the
    calls made to it so far, oldest first), the console, and
    [window.speechSynthesis] (its [speaking] attribute and the utterances
    handed to [speak] that were not cancelled, oldest first). *)
Record Browser := {
  br_requests : list GenerateContentParameters;
  br_console : list JS.Error;
  br_speaking : bool;
  br_queue : list SpeechSynthesisUtterance
}.

Record World := { react : State; browser : Browser }.

Definition name (w : World) : string := st_name (react w).
Definition age (w : World) : Z := st_age (react w).
Definition interests (w : World) : string := st_interests (react w).
Definition story (w : World) : string := st_story (react w).
Definition isLoading (w : World) : bool := st_isLoading (react w).
Definition isReading (w : World) : bool := st_isReading (react w).
Definition error (w : World) : option string := st_error (react w).
Definition utteranceRef (w : World) : option SpeechSynthesisUtterance :=
  st_utteranceRef (react w).
Definition requests (w : World) : list GenerateContentParameters :=
  br_requests (browser w).
Definition console (w : World) : list JS.Error := br_console (browser w).
Definition speaking (w : World) : bool := br_speaking (browser w).
Definition queue (w : World) : list SpeechSynthesisUtterance :=
  br_queue (browser w).

(** The state setters. *)

Definition setStory (v : string) (w : World) : World :=
  let s := react w in
  {| react := {| st_name := st_name s; st_age := st_age s;
                 st_interests := st_interests s; st_story := v;
                 st_isLoading := st_isLoading s;
                 st_isReading := st_isReading s; st_error := st_error s;
                 st_utteranceRef := st_utteranceRef s |};
     browser := browser w |}.

Definition setIsLoading (v : bool) (w : World) : World :=
  let s := react w in
  {| react := {| st_name := st_name s; st_age := st_age s;
                 st_interests := st_interests s; st_story := st_story s;
                 st_isLoading := v;
                 st_isReading := st_isReading s; st_error := st_error s;
                 st_utteranceRef := st_utteranceRef s |};
     browser := browser w |}.

Definition setIsReading (v : bool) (w : World) : World :=
  let s := react w in
  {| react := {| st_name := st_name s; st_age := st_age s;
                 st_interests := st_interests s; st_story := st_story s;
                 st_isLoading := st_isLoading s;
                 st_isReading := v; st_error := st_error s;
                 st_utteranceRef := st_utteranceRef s |};
     browser := browser w |}.

Definition setError (v : option string) (w : World) : World :=
  let s := react w in
  {| react := {| st_name := st_name s; st_age := st_age s;
                 st_interests := st_interests s; st_story := st_story s;
                 st_isLoading := st_isLoading s;
                 st_isReading := st_isReading s; st_error := v;
                 st_utteranceRef := st_utteranceRef s |};
     browser := browser w |}.

(** [utteranceRef.current = v]. *)
Definition setUtteranceRef (v : option SpeechSynthesisUtterance) (w : World)
  : World :=
  let s := react w in
  {| react := {| st_name := st_name s; st_age := st_age s;
                 st_interests := st_interests s; st_story := st_story s;
                 st_isLoading := st_isLoading s;
                 st_isReading := st_isReading s; st_error := st_error s;
                 st_utteranceRef := v |};
     browser := browser w |}.

(** The calls into the browser. *)

(** [ai.models.generateContentStream(params)]: one more call on record. *)
Definition generateContentStream (params : GenerateContentParameters)
  (w : World) : World :=
  let b := browser w in
  {| react := react w;
     browser := {| br_requests := br_requests b ++ [params];
                   br_console := br_console b;
                   br_speaking := br_speaking b;
                   br_queue := br_queue b |} |}.

(** [console.error(err)]. *)
Definition console_error (err : JS.Error) (w : World) : World :=
  let b := browser w in
  {| react := react w;
     browser := {| br_requests := br_requests b;
                   br_console := br_console b ++ [err];
                   br_speaking := br_speaking b;
                   br_queue := br_queue b |} |}.

(** [window.speechSynthesis.speak(utterance)]: the utterance joins the
    queue. When the engine starts on it, and reports [speaking], is the
    engine's business. *)
Definition speechSynthesis_speak (utterance : SpeechSynthesisUtterance)
  (w : World) : World :=
  let b := browser w in
  {| react := react w;
     browser := {| br_requests := br_requests b;
                   br_console := br_console b;
                   br_speaking := br_speaking b;
                   br_queue := br_queue b ++ [utterance] |} |}.

(** [window.speechSynthesis.cancel()]: the queue is emptied and nothing is
    spoken any more. *)
Definition speechSynthesis_cancel (w : World) : World :=
  let b := browser w in
  {| react := react w;
     browser := {| br_requests := br_requests b;
                   br_console := br_console b;
                   br_speaking := false;
                   br_queue := [] |} |}.

(** The engine starts on the utterance at the head of its queue: from then
    on it reports [speaking]. *)
Definition speechSynthesis_starts (w : World) : World :=
  let b := browser w in
  match br_queue b with
  | [] => w
  | _ :: _ =>
      {| react := react w;
         browser := {| br_requests := br_requests b;
                       br_console := br_console b;
                       br_speaking := true;
                       br_queue := br_queue b |} |}
  end.

(** ** Story generation *)

(** Modelled from the spec: the type of a streamed chunk is declared by the
    generation client, which is not part of the sources; the design gives a
    chunk as [{text: string}]. *)
Record Chunk := { text : string }.

(** What one step of the response iterator gives: the next chunk, or an
    exception. The end of the list is the end of the stream. *)
Inductive IteratorResult :=
| Yield (chunk : Chunk)
| Throw (err : JS.Error).

(** What the service answers to one call: the awaited call itself is
    rejected, or it gives a stream. *)
Inductive Response :=
| Rejected (err : JS.Error)
| Stream (responseStream : list IteratorResult).

(** What becomes of the [try] block on its way to the service: the
    constructor of the client throws, or the client is there, the service
    is called, and answers. An answer of the service stands, where an
    attempt is expected, for the attempt in which the service was called
    and gave it. *)
Inductive Attempt :=
| ConstructorThrows (err : JS.Error)
| Calls (answer : Response).

Coercion Calls : Response >-> Attempt.

(** How a block of statements ends. *)
Inductive Completion :=
| Normal
| Abrupt (err : JS.Error).

Definition validationMessage : string :=
  "Please fill in the child's name and interests.".

Definition generationMessage : string :=
  "Sorry, something went wrong while creating the story. Please try again.".

Definition speechMessage : string :=
  "Sorry, an error occurred with the text-to-speech service.".

Definition systemInstruction : string :=
  "You are a whimsical and creative storyteller for young children. Your stories are always positive, encouraging, and filled with wonder. They should be easy for a child to understand and should gently weave in a positive message about friendship, courage, or curiosity.".

Definition prompt (name : string) (age : Z) (interests : string) : string :=
  "Create a short, magical story for " ++ name ++ ", who is "
  ++ JS.numberToString age ++ " years old and loves " ++ interests
  ++ ". Make sure " ++ name ++ " is the hero of the story.".

(** The [for await] loop. [fullStory] is the local accumulator. The result
    is the world after each chunk, in order, then the world the loop is left
    in and how it is left. Once the iterator throws, what the service would
    have sent next is never asked for. *)
Fixpoint forAwait (responseStream : list IteratorResult) (fullStory : string)
  (w : World) : list World * (World * Completion) :=
  match responseStream with
  | [] => ([], (w, Normal))
  | Throw err :: _ => ([], (w, Abrupt err))
  | Yield chunk :: rest =>
      let fullStory := fullStory ++ text chunk in
      let w := setStory fullStory w in
      let '(published, outcome) := forAwait rest fullStory w in
      (w :: published, outcome)
  end.

(** The [catch] and [finally] blocks. *)
Definition catchFinally (outcome : World * Completion) : World :=
  let '(w, completion) := outcome in
  let w :=
    match completion with
    | Normal => w
    | Abrupt err =>
        let w := console_error err w in
        setError (Some generationMessage) w
    end in
  setIsLoading false w.

(** [handleGenerateStory], given what becomes of its attempt to reach the
    service. The result is the sequence of worlds the handler goes
    through: with a name or the interests missing, the one it returns in;
    else the one after its first three writes, the one after each chunk,
    and the one it ends in. When the service is called, the handler
    suspends at its first [await] in the first of these worlds, with the
    call made, and each world of the list is rendered. When the constructor
    of the client throws, no call is made and the handler does not
    suspend: the world after the first three writes is then not rendered.
    [e.preventDefault()] leaves the world as it is. *)
Definition handleGenerateStory (attempt : Attempt) (w : World) : list World :=
  if negb (JS.truthy (name w)) || negb (JS.truthy (interests w)) then
    [setError (Some validationMessage) w]
  else
    let w := setError None w in
    let w := setIsLoading true w in
    let w := setStory "" w in
    match attempt with
    | ConstructorThrows err => [w; catchFinally (w, Abrupt err)]
    | Calls answer =>
        let prompt := prompt (name w) (age w) (interests w) in
        let w := generateContentStream
                   {| model := "gemini-2.5-flash";
                      contents := prompt;
                      config_systemInstruction := systemInstruction |} w in
        match answer with
        | Rejected err => [w; catchFinally (w, Abrupt err)]
        | Stream responseStream =>
            let fullStory := "" in
            let '(published, outcome) :=
              forAwait responseStream fullStory w in
            w :: published ++ [catchFinally outcome]
        end
    end.

(** The world a handler run ends in. *)
Definition final (w : World) (published : list World) : World :=
  last published w.

(** The request state of the design, read off the two cells that carry it. *)
Inductive RequestState :=
| Idle
| Loading
| Error (message : string).

Definition requestState (w : World) : RequestState :=
  if isLoading w then Loading
  else match error w with
       | Some message => Error message
       | None => Idle
       end.

(** ** Reading aloud *)

(** [handleReadAloud], as memoized at the render of the world [rendered]
    (its dependencies are [story] and [isReading], which it reads as they
    were at that render) and called in the world [w]. *)
Definition handleReadAloud (rendered : World) (w : World) : World :=
  if isReading rendered || negb (JS.truthy (story rendered)) then w
  else
    let utterance := {| utteranceText := story rendered |} in
    let w := setUtteranceRef (Some utterance) w in
    let w := speechSynthesis_speak utterance w in
    setIsReading true w.

(** [utterance.onend]. *)
Definition utterance_onend (w : World) : World :=
  let w := setIsReading false w in
  setUtteranceRef None w.

(** [utterance.onerror]. *)
Definition utterance_onerror (w : World) : World :=
  let w := setError (Some speechMessage) w in
  setIsReading false w.

Definition handleStopReading (w : World) : World :=
  if speaking w then
    let w := speechSynthesis_cancel w in
    let w := setIsReading false w in
    setUtteranceRef None w
  else w.

(** The component as first rendered. *)
Definition initialState : State :=
  {| st_name := ""; st_age := 5; st_interests := ""; st_story := "";
     st_isLoading := false; st_isReading := false; st_error := None;
     st_utteranceRef := None |}.

Definition initialWorld : World :=
  {| react := initialState;
     browser := {| br_requests := []; br_console := [];
                   br_speaking := false; br_queue := [] |} |}.

(** The form's [onChange] handlers. *)
Definition setName (v : string) (w : World) : World :=
  let s := react w in
  {| react := {| st_name := v; st_age := st_age s;
                 st_interests := st_interests s; st_story := st_story s;
                 st_isLoading := st_isLoading s;
                 st_isReading := st_isReading s; st_error := st_error s;
                 st_utteranceRef := st_utteranceRef s |};
     browser := browser w |}.

Definition setAge (v : Z) (w : World) : World :=
  let s := react w in
  {| react := {| st_name := st_name s; st_age := v;
                 st_interests := st_interests s; st_story := st_story s;
                 st_isLoading := st_isLoading s;
                 st_isReading := st_isReading s; st_error := st_error s;
                 st_utteranceRef := st_utteranceRef s |};
     browser := browser w |}.

Definition setInterests (v : string) (w : World) : World :=
  let s := react w in
  {| react := {| st_name := st_name s; st_age := st_age s;
                 st_interests := v; st_story := st_story s;
                 st_isLoading := st_isLoading s;
                 st_isReading := st_isReading s; st_error := st_error s;
                 st_utteranceRef := st_utteranceRef s |};
     browser := browser w |}.

(** ** Highlighting the name *)

(** The two elements [highlightName] builds, with their [key]. *)
Inductive Element :=
| Strong (key : nat) (children : string)
| Fragment (key : nat) (children : string).

(** What [highlightName] returns: the text itself, or an array of
    elements. *)
Inductive ReactNode :=
| TextNode (s : string)
| ElementArray (elements : list Element).

(** [highlightName]. [None]: the name led to a pattern that
    [JS.newRegExp] does not give a regular expression for ([JS.split]
    itself always returns, see [split_returns]). *)
Definition highlightName (text nameToHighlight : string) : option ReactNode :=
  if negb (JS.truthy (JS.trim nameToHighlight)) then Some (TextNode text)
  else
    match JS.newRegExp ("(" ++ nameToHighlight ++ ")") "gi" with
    | None => None
    | Some regex =>
        match JS.split text regex with
        | None => None
        | Some parts =>
            Some (ElementArray
                    (JS.map (fun part index =>
                               if (JS.toLowerCase part
                                   =? JS.toLowerCase nameToHighlight)%string
                               then Strong index part
                               else Fragment index part)
                            parts))
        end
    end.

(** *** The segments of the design *)

Inductive Segment :=
| plain (s : string)
| emphasized (s : string).

Definition segmentText (g : Segment) : string :=
  match g with
  | plain s => s
  | emphasized s => s
  end.

Definition segmentOf (e : Element) : Segment :=
  match e with
  | Strong _ s => emphasized s
  | Fragment _ s => plain s
  end.

Definition segments (node : ReactNode) : list Segment :=
  match node with
  | TextNode s => [plain s]
  | ElementArray elements => List.map segmentOf elements
  end.

(** ** Notions of the design used to state the properties *)

(** The chunks a stream delivers before it ends or throws. *)
Fixpoint received (responseStream : list IteratorResult) : list Chunk :=
  match responseStream with
  | Yield chunk :: rest => chunk :: received rest
  | _ => []
  end.

(** The successive values of the accumulator over the chunks. *)
Fixpoint running (fullStory : string) (chunks : list Chunk) : list string :=
  match chunks with
  | [] => []
  | chunk :: rest =>
      (fullStory ++ text chunk) :: running (fullStory ++ text chunk) rest
  end.

(** The world [handleGenerateStory] suspends in, once validation passed. *)
Definition started (w : World) : World :=
  generateContentStream
    {| model := "gemini-2.5-flash";
       contents := prompt (name w) (age w) (interests w);
       config_systemInstruction := systemInstruction |}
    (setStory "" (setIsLoading true (setError None w))).

(** A name that is empty or made of white space only. *)
Fixpoint blank (s : string) : bool :=
  match s with
  | EmptyString => true
  | String c rest => JS.isWhiteSpace c && blank rest
  end.

(** A name without characters that mean something in a pattern. *)
Fixpoint plainCharacters (s : string) : bool :=
  match s with
  | EmptyString => true
  | String c rest => negb (JS.isSyntaxCharacter c) && plainCharacters rest
  end.

(** Two strings that differ in case only. *)
Definition sameIgnoringCase (a b : string) : Prop :=
  JS.toLowerCase a = JS.toLowerCase b.

(** [name] occurs in [text] at index [i], whatever the case. *)
Definition occursAt (name text : string) (i : nat) : Prop :=
  i + length name <= length text
  /\ sameIgnoringCase (substring i (length name) text) name.

(** The split of the design, in its words: the text is cut at the leftmost
    occurrence of the name, whatever the case; what comes before is plain,
    the occurrence is emphasized, and the rest of the text, after the
    occurrence, is split in the same way. A text without occurrence is one
    plain segment. *)
Inductive GreedySplit (name : string) : string -> list Segment -> Prop :=
| split_none text :
    (forall i, ~ occursAt name text i) ->
    GreedySplit name text [plain text]
| split_at before hit rest segs :
    sameIgnoringCase hit name ->
    (forall i, i < length before -> ~ occursAt name (before ++ hit ++ rest) i) ->
    GreedySplit name rest segs ->
    GreedySplit name (before ++ hit ++ rest)
                (plain before :: emphasized hit :: segs).

(** The pattern of a name without syntax characters, as [JS.parsePattern]
    builds it on top of [done]. *)
Fixpoint literal (done : JS.Pattern) (s : string) : JS.Pattern :=
  match s with
  | EmptyString => done
  | String c rest => literal (JS.Seq done (JS.Char c)) rest
  end.

(** The regular expression [highlightName] builds for a plain name. *)
Definition nameRegExp (nm : string) : JS.RegExp :=
  {| JS.pattern := JS.Seq JS.Empty (JS.Group (literal JS.Empty nm));
     JS.global := true;
     JS.ignoreCase := true |}.

(** [input] starts with the characters of [atoms], up to what
    [JS.unitMatches] lets through. *)
Fixpoint matchPrefix (ignoreCase : bool) (atoms input : string) : bool :=
  match atoms with
  | EmptyString => true
  | String p atoms' =>
      match input with
      | EmptyString => false
      | String c input' =>
          JS.unitMatches ignoreCase p c && matchPrefix ignoreCase atoms' input'
      end
  end.

(** The 256 code units. *)
Definition allUnits : list ascii := List.map ascii_of_nat (seq 0 256).

(** The tag [highlightName] gives a part. *)
Definition tag (nameToHighlight part : string) : Segment :=
  if (JS.toLowerCase part =? JS.toLowerCase nameToHighlight)%string
  then emphasized part else plain part.

(** Worlds to try the handlers on. *)
Definition lily : World :=
  setInterests "dragons" (setAge 7 (setName "Lily" initialWorld)).

Definition onceUponATime : list Chunk :=
  [{| text := "Once " |}; {| text := "upon " |}; {| text := "a time" |}].

Definition lilyWithStory : World :=
  final lily
    (handleGenerateStory (Stream [Yield {| text := "Lily met a dragon." |}])
                         lily).

Definition lilyReading : World :=
  handleReadAloud lilyWithStory lilyWithStory.

Definition lilySpeaking : World := speechSynthesis_starts lilyReading.

(** ** What is rendered *)

(** One [option] of the age selector. *)
Record AgeOption := {
  option_key : Z;
  option_value : Z;
  option_label : string
}.

Definition ageOptions : list AgeOption :=
  JS.map (fun _ i =>
            {| option_key := Z.of_nat i + 3;
               option_value := Z.of_nat i + 3;
               option_label :=
                 JS.numberToString (Z.of_nat i + 3) ++ " years old" |})
         (JS.Array 8).

(** The [onChange] of the selector, when the option at [index] is chosen:
    [e.target.value] is the value of that option, as a string. *)
Definition selectAge (index : nat) (w : World) : World :=
  match nth_error ageOptions index with
  | Some chosen =>
      match JS.Number (JS.numberToString (option_value chosen)) with
      | Some n => setAge n w
      | None => w
      end
  | None => w
  end.

(** The submit button. *)
Record SubmitButton := {
  submit_disabled : bool;
  submit_ariaBusy : bool;
  submit_label : string
}.

(** The handler the button of the story controls is given. *)
Inductive ClickHandler :=
| ReadAloudHandler
| StopReadingHandler.

Record ControlButton := {
  control_onClick : ClickHandler;
  control_disabled : bool;
  control_label : string
}.

(** The children of the story container. *)
Inductive StoryChild :=
| Placeholder (message : string)
| StoryBlock (control : ControlButton) (content : ReactNode)
| ErrorMessage (message : string).

(** [{condition && child}]: the child when the condition holds, nothing in
    the page otherwise. *)
Definition renderIf (condition : bool) (child : StoryChild)
  : list StoryChild :=
  if condition then [child] else [].

(** The parts of what [App] returns that depend on the state. *)
Record View := {
  view_name : string;
  view_age : Z;
  view_interests : string;
  view_ageOptions : list AgeOption;
  view_submit : SubmitButton;
  view_story : list StoryChild
}.

(** What [App] returns, given what [highlightName] does on a text and a
    name: it returns a node, or throws ([None]). The highlighter is called
    when there is a story; when it throws, the render throws with it
    ([None]), and nothing of the page is left. *)
Definition renderWith (highlight : string -> string -> option ReactNode)
  (w : World) : option View :=
  match (if JS.truthy (story w) then
           match highlight (story w) (name w) with
           | Some content =>
               Some [StoryBlock
                       {| control_onClick :=
                            if isReading w then StopReadingHandler
                            else ReadAloudHandler;
                          control_disabled := isLoading w;
                          control_label := if isReading w then "Stop Reading"
                                           else "Read Aloud" |}
                       content]
           | None => None
           end
         else Some []) with
  | None => None
  | Some storyBlock =>
      Some
        {| view_name := name w;
           view_age := age w;
           view_interests := interests w;
           view_ageOptions := ageOptions;
           view_submit :=
             {| submit_disabled := isLoading w;
                submit_ariaBusy := isLoading w;
                submit_label := if isLoading w then "Creating Magic..."
                                else "Write my Story!" |};
           view_story :=
             (renderIf (negb (JS.truthy (story w)) && negb (isLoading w))
                       (Placeholder "Your magical story will appear here...")
              ++ renderIf (isLoading w && negb (JS.truthy (story w)))
                   (Placeholder
                      "Our storytellers are busy writing a special tale...")
              ++ storyBlock
              ++ match error w with
                 | Some message => renderIf (JS.truthy message)
                                            (ErrorMessage message)
                 | None => []
                 end)%list |}
  end.

(** The button of the story controls and the view, as [renderWith] builds
    them. *)
Definition controlOf (w : World) : ControlButton :=
  {| control_onClick := if isReading w then StopReadingHandler
                        else ReadAloudHandler;
     control_disabled := isLoading w;
     control_label := if isReading w then "Stop Reading" else "Read Aloud" |}.

Definition viewOf (w : World) (storyBlock : list StoryChild) : View :=
  {| view_name := name w;
     view_age := age w;
     view_interests := interests w;
     view_ageOptions := ageOptions;
     view_submit :=
       {| submit_disabled := isLoading w;
          submit_ariaBusy := isLoading w;
          submit_label := if isLoading w then "Creating Magic..."
                          else "Write my Story!" |};
     view_story :=
       (renderIf (negb (JS.truthy (story w)) && negb (isLoading w))
                 (Placeholder "Your magical story will appear here...")
        ++ renderIf (isLoading w && negb (JS.truthy (story w)))
             (Placeholder
                "Our storytellers are busy writing a special tale...")
        ++ storyBlock
        ++ match error w with
           | Some message => renderIf (JS.truthy message)
                                      (ErrorMessage message)
           | None => []
           end)%list |}.

(** The render with the highlighter of this development, which has [None]
    also for the names whose pattern it does not cover. *)
Definition render (w : World) : option View := renderWith highlightName w.

(** The button of the story controls, when it is in the page. *)
Fixpoint controlButton (children : list StoryChild) : option ControlButton :=
  match children with
  | [] => None
  | StoryBlock control _ :: _ => Some control
  | _ :: rest => controlButton rest
  end.

(** The handler a button was given at the render of [rendered], called in
    the world [w]. *)
Definition callHandler (handler : ClickHandler) (rendered w : World)
  : World :=
  match handler with
  | ReadAloudHandler => handleReadAloud rendered w
  | StopReadingHandler => handleStopReading w
  end.

(** A click on the button of the story controls, in the page as rendered
    from the world: nothing when the render threw, when the button is not
    in the page or when it is disabled; the handler it was given
    otherwise. *)
Definition clickControlWith (highlight : string -> string -> option ReactNode)
  (w : World) : World :=
  match renderWith highlight w with
  | Some view =>
      match controlButton (view_story view) with
      | Some control =>
          if control_disabled control then w
          else callHandler (control_onClick control) w w
      | None => w
      end
  | None => w
  end.

Definition clickControl (w : World) : World :=
  clickControlWith highlightName w.

(** The children of the story container that are not the error message. *)
Definition isErrorMessage (child : StoryChild) : bool :=
  match child with
  | ErrorMessage _ => true
  | _ => false
  end.

(** ** The handlers in the event loop *)

(** A run of [handleGenerateStory] that is suspended at an [await]: at the
    call of the service, with the answer it is going to get, or in the
    loop, with its accumulator and with what the stream still holds. *)
Inductive Suspended :=
| AtCall (answer : Response)
| InLoop (fullStory : string) (responseStream : list IteratorResult).

(** The handler up to its first [await], or to its end when it does not
    get there: the run that is then suspended, if any, and the world the
    turn leaves. *)
Definition submit (attempt : Attempt) (w : World) : option Suspended * World :=
  if negb (JS.truthy (name w)) || negb (JS.truthy (interests w)) then
    (None, setError (Some validationMessage) w)
  else
    let w := setError None w in
    let w := setIsLoading true w in
    let w := setStory "" w in
    match attempt with
    | ConstructorThrows err => (None, catchFinally (w, Abrupt err))
    | Calls answer =>
        let prompt := prompt (name w) (age w) (interests w) in
        let w := generateContentStream
                   {| model := "gemini-2.5-flash";
                      contents := prompt;
                      config_systemInstruction := systemInstruction |} w in
        (Some (AtCall answer), w)
    end.

(** A suspended run goes on, in the world as it is by then, to its next
    [await] or to its end. *)
Definition resume (run : Suspended) (w : World) : option Suspended * World :=
  match run with
  | AtCall (Rejected err) => (None, catchFinally (w, Abrupt err))
  | AtCall (Stream responseStream) => (Some (InLoop "" responseStream), w)
  | InLoop fullStory [] => (None, catchFinally (w, Normal))
  | InLoop fullStory (Throw err :: _) => (None, catchFinally (w, Abrupt err))
  | InLoop fullStory (Yield chunk :: rest) =>
      let fullStory := fullStory ++ text chunk in
      (Some (InLoop fullStory rest), setStory fullStory w)
  end.

(** A run resumed again and again with nothing else in between: the world
    after each time. *)
Fixpoint resumeAll (fuel : nat) (run : option Suspended) (w : World)
  : list World :=
  match fuel, run with
  | S fuel, Some suspended =>
      let '(next, w) := resume suspended w in
      w :: resumeAll fuel next w
  | _, _ => []
  end.

(** The component in the event loop: its world, and the runs of
    [handleGenerateStory] that got to their first [await] so far, in
    order; a run that ended leaves [None] in its place. *)
Record Machine := {
  world : World;
  runs : list (option Suspended)
}.

Inductive Event :=
| NameInput (v : string)
| AgeSelect (index : nat)
| InterestsInput (v : string)
| Submit (attempt : Attempt)
| Resume (k : nat)
| ReadAloud
| StopReading
| EngineStarts
| UtteranceEnd
| UtteranceError.

Fixpoint setNth {A : Type} (k : nat) (x : A) (l : list A) : list A :=
  match l, k with
  | [], _ => []
  | _ :: rest, O => x :: rest
  | y :: rest, S k => y :: setNth k x rest
  end.

Definition onWorld (f : World -> World) (m : Machine) : Machine :=
  {| world := f (world m); runs := runs m |}.

(** One turn of the event loop, with a render after it: [handleReadAloud]
    is the one of the latest render. The handlers and the callbacks may be
    called at any time, whatever the page shows; how the engine keeps its
    queue when an utterance ends is not part of the callbacks. *)
Definition step (m : Machine) (e : Event) : Machine :=
  match e with
  | NameInput v => onWorld (setName v) m
  | AgeSelect index => onWorld (selectAge index) m
  | InterestsInput v => onWorld (setInterests v) m
  | Submit attempt =>
      let '(suspended, w) := submit attempt (world m) in
      {| world := w;
         runs := match suspended with
                 | Some _ => (runs m ++ [suspended])%list
                 | None => runs m
                 end |}
  | Resume k =>
      match nth_error (runs m) k with
      | Some (Some suspended) =>
          let '(next, w) := resume suspended (world m) in
          {| world := w; runs := setNth k next (runs m) |}
      | _ => m
      end
  | ReadAloud => onWorld (fun w => handleReadAloud w w) m
  | StopReading => onWorld handleStopReading m
  | EngineStarts => onWorld speechSynthesis_starts m
  | UtteranceEnd => onWorld utterance_onend m
  | UtteranceError => onWorld utterance_onerror m
  end.

Definition initialMachine : Machine := {| world := initialWorld; runs := [] |}.

Definition play (events : list Event) (m : Machine) : Machine :=
  fold_left step events m.

(** The messages the component shows. *)
Definition shownMessage (e : option string) : Prop :=
  e = None \/ e = Some validationMessage
  \/ e = Some generationMessage \/ e = Some speechMessage.

(** The exception a service answer ends in, when it does. *)
Fixpoint thrown (responseStream : list IteratorResult) : option JS.Error :=
  match responseStream with
  | [] => None
  | Throw err :: _ => Some err
  | Yield _ :: rest => thrown rest
  end.

Definition failure (attempt : Attempt) : option JS.Error :=
  match attempt with
  | ConstructorThrows err => Some err
  | Calls (Rejected err) => Some err
  | Calls (Stream responseStream) => thrown responseStream
  end.

(** The chunks an attempt delivers, and how the [try] block ends on it. *)
Definition delivered (attempt : Attempt) : list Chunk :=
  match attempt with
  | Calls (Stream responseStream) => received responseStream
  | _ => []
  end.

Definition ending (attempt : Attempt) : Completion :=
  match failure attempt with
  | Some err => Abrupt err
  | None => Normal
  end.

(** The world after the first three writes of a validated run. *)
Definition cleared (w : World) : World :=
  setStory "" (setIsLoading true (setError None w)).

(** Whether the client is constructed, and the first world of a validated
    run: the world after the first three writes, with the call on record
    when the client is constructed. *)
Definition constructs (attempt : Attempt) : bool :=
  match attempt with
  | ConstructorThrows _ => false
  | Calls _ => true
  end.

Definition entered (attempt : Attempt) (w : World) : World :=
  if constructs attempt then started w else cleared w.

(** The key of an element. *)
Definition elementKey (e : Element) : nat :=
  match e with
  | Strong key _ => key
  | Fragment key _ => key
  end.

(** Segments that are plain and emphasized in turn, from a plain one to a
    plain one. *)
Fixpoint alternate (segs : list Segment) : bool :=
  match segs with
  | [plain _] => true
  | plain _ :: emphasized _ :: rest => alternate rest
  | _ => false
  end.

(** How often [Resume k] is among the events. *)
Fixpoint resumes (k : nat) (events : list Event) : nat :=
  match events with
  | [] => 0
  | Resume k' :: rest => (if (k' =? k)%nat then 1 else 0) + resumes k rest
  | _ :: rest => resumes k rest
  end.

(** * Properties *)

(** ** Strings *)

Lemma truthy_true (s : string) : s <> "" -> JS.truthy s = true.
Proof. destruct s; [congruence | reflexivity]. Qed.

Lemma append_nil_r (s : string) : s ++ "" = s.
Proof. induction s; simpl; congruence. Qed.

Lemma append_assoc (a b c : string) : (a ++ b) ++ c = a ++ b ++ c.
Proof. induction a; simpl; congruence. Qed.

Lemma join_app (l1 l2 : list string) :
  JS.join (l1 ++ l2) = JS.join l1 ++ JS.join l2.
Proof.
  induction l1 as [|x l1 IH]; simpl; [reflexivity|].
  unfold JS.join in *. simpl. rewrite IH. now rewrite append_assoc.
Qed.

Lemma includes_here (before t after : string) :
  JS.includes (before ++ t ++ after) t.
Proof. now exists before, after. Qed.

(** ** The generation handler *)

Lemma handleGenerateStory_valid (answer : Response) (w : World) :
  name w <> "" -> interests w <> "" ->
  handleGenerateStory answer w =
  match answer with
  | Rejected err => [started w; catchFinally (started w, Abrupt err)]
  | Stream responseStream =>
      started w :: fst (forAwait responseStream "" (started w))
                ++ [catchFinally (snd (forAwait responseStream "" (started w)))]
  end.
Proof.
  intros Hn Hi. unfold handleGenerateStory.
  rewrite (truthy_true _ Hn), (truthy_true _ Hi). simpl.
  destruct answer as [err|items]; [reflexivity|].
  change (generateContentStream _ _) with (started w).
  now destruct (forAwait items "" (started w)).
Qed.

Lemma handleGenerateStory_invalid (attempt : Attempt) (w : World) :
  name w = "" \/ interests w = "" ->
  handleGenerateStory attempt w = [setError (Some validationMessage) w].
Proof.
  intros H. unfold handleGenerateStory.
  destruct H as [H|H]; rewrite H; simpl; [reflexivity|].
  now rewrite orb_true_r.
Qed.

Lemma running_length (chunks : list Chunk) (full : string) :
  List.length (running full chunks) = List.length chunks.
Proof.
  revert full; induction chunks as [|c r IH]; intros full; simpl;
    [reflexivity | now rewrite IH].
Qed.

Lemma running_nth (chunks : list Chunk) (full : string) (i : nat) :
  i < List.length chunks ->
  nth_error (running full chunks) i
  = Some (full ++ JS.join (List.map text (firstn (S i) chunks))).
Proof.
  revert full i; induction chunks as [|c r IH]; intros full i Hi;
    simpl in Hi; [lia|].
  destruct i as [|i].
  - simpl. destruct r; unfold JS.join; simpl; now rewrite ?append_nil_r.
  - cbn [running nth_error]. rewrite IH by lia.
    cbn [firstn List.map]. unfold JS.join. cbn [fold_right].
    now rewrite append_assoc.
Qed.

Lemma running_last (chunks : list Chunk) (full : string) :
  last (running full chunks) full
  = full ++ JS.join (List.map text chunks).
Proof.
  revert full; induction chunks as [|c r IH]; intros full.
  - simpl. unfold JS.join. simpl. now rewrite append_nil_r.
  - cbn [running]. 
    assert (E : forall l d d', l <> [] -> last l d = last l d' :> string).
    { induction l as [|x [|y l] IHl]; intros; simpl; try congruence.
      apply IHl. discriminate. }
    destruct r as [|c' r].
    + simpl. unfold JS.join. simpl. now rewrite append_nil_r.
    + change (last ((full ++ text c) :: running (full ++ text c) (c' :: r)) full)
        with (last (running (full ++ text c) (c' :: r)) full).
      rewrite (E _ full (full ++ text c)) by (simpl; discriminate).
      rewrite IH. unfold JS.join. cbn [List.map fold_right].
      now rewrite append_assoc.
Qed.

Lemma last_cons {A : Type} (a d : A) (l : list A) :
  last (a :: l) d = last l a.
Proof.
  revert a d; induction l as [|b l IH]; intros a d; [reflexivity|].
  change (last (a :: b :: l) d) with (last (b :: l) d).
  now rewrite !IH.
Qed.

Lemma last_map {A B : Type} (f : A -> B) (l : list A) (d : A) :
  last (List.map f l) (f d) = f (last l d).
Proof.
  revert d; induction l as [|a l IH]; intros d; [reflexivity|].
  cbn [List.map]. rewrite !last_cons. apply IH.
Qed.

(** The loop over a stream that yields [chunks] and then ends as [tail]
    does: the accumulator, and the story, run through the concatenations of
    the chunks, in order. *)
Lemma forAwait_yields (chunks : list Chunk) (tail : list IteratorResult)
  (c : Completion) (full : string) (w : World) :
  (forall f v, forAwait tail f v = ([], (v, c))) ->
  forAwait (List.map Yield chunks ++ tail) full w
  = (List.map (fun s => setStory s w) (running full chunks),
     (last (List.map (fun s => setStory s w) (running full chunks)) w, c)).
Proof.
  intros Htail. revert full w.
  induction chunks as [|chunk rest IH]; intros full w.
  - simpl. apply Htail.
  - cbn [List.map app forAwait running]. rewrite IH.
    rewrite last_cons. reflexivity.
Qed.

Lemma forAwait_end (f : string) (v : World) :
  forAwait [] f v = ([], (v, Normal)).
Proof. reflexivity. Qed.

Lemma forAwait_throw (err : JS.Error) (rest : list IteratorResult)
  (f : string) (v : World) :
  forAwait (Throw err :: rest) f v = ([], (v, Abrupt err)).
Proof. reflexivity. Qed.

(** What the handler publishes for such a stream. *)
Lemma handleGenerateStory_stream (w : World) (chunks : list Chunk)
  (tail : list IteratorResult) (c : Completion) :
  name w <> "" -> interests w <> "" ->
  (forall f v, forAwait tail f v = ([], (v, c))) ->
  handleGenerateStory (Stream (List.map Yield chunks ++ tail)) w
  = ((started w
      :: List.map (fun s => setStory s (started w)) (running "" chunks))
     ++ [catchFinally
           (setStory (JS.join (List.map text chunks)) (started w), c)])%list.
Proof.
  intros Hn Hi Htail.
  rewrite handleGenerateStory_valid by assumption.
  rewrite (forAwait_yields chunks tail c) by assumption.
  cbn [fst snd]. rewrite app_comm_cons. do 3 f_equal.
  change (started w) with ((fun s => setStory s (started w)) "") at 2.
  rewrite last_map, running_last. reflexivity.
Qed.

Lemma published_stories (w : World) (chunks : list Chunk) (c : Completion) :
  List.map story
    ((started w
      :: List.map (fun s => setStory s (started w)) (running "" chunks))
     ++ [catchFinally
           (setStory (JS.join (List.map text chunks)) (started w), c)])
  = (("" :: running "" chunks) ++ [JS.join (List.map text chunks)])%list.
Proof.
  rewrite map_app. cbn [List.map]. rewrite map_map.
  f_equal.
  - f_equal. now rewrite map_id.
  - now destruct c.
Qed.

Lemma stories_nth (chunks : list Chunk) (i : nat) :
  i <= List.length chunks ->
  nth_error (("" :: running "" chunks) ++ [JS.join (List.map text chunks)])%list
            i
  = Some (JS.join (List.map text (firstn i chunks))).
Proof.
  intros Hi. rewrite nth_error_app1
    by (cbn [List.length]; rewrite running_length; lia).
  destruct i as [|i]; [reflexivity|].
  cbn [nth_error]. now rewrite running_nth by lia.
Qed.

Lemma join_firstn_prefix (chunks : list Chunk) (i : nat) :
  JS.startsWith (JS.join (List.map text chunks))
                (JS.join (List.map text (firstn i chunks))).
Proof.
  exists (JS.join (List.map text (skipn i chunks))).
  rewrite <- join_app, <- map_app. now rewrite firstn_skipn.
Qed.

Lemma nth_error_story (published : list World) (i : nat) (s : string) :
  nth_error (List.map story published) i = Some s ->
  exists wi, nth_error published i = Some wi /\ story wi = s.
Proof.
  rewrite nth_error_map. destruct (nth_error published i) as [wi|];
    simpl; intros H; [|discriminate].
  exists wi. split; congruence.
Qed.

(** C1: while one request is served, the story only grows, chunk by chunk
    and in the order of arrival. For a stream that yields [chunks] and
    ends, the handler publishes one world when it starts, one after each
    chunk and one when it ends; the story after the i-th chunk is the
    concatenation of the first i chunks, hence a prefix of the final text;
    each update appends exactly the chunk that arrived; the final story is
    the concatenation of all chunks. For "Once ", "upon ", "a time" the
    displayed stories are "", "Once ", "Once upon ", "Once upon a time". *)
Theorem C1_story_appends_chunks_in_order (w : World) (chunks : list Chunk) :
  name w <> "" -> interests w <> "" ->
  let published := handleGenerateStory (Stream (List.map Yield chunks)) w in
  List.length published = List.length chunks + 2
  /\ (forall i, i <= List.length chunks ->
        exists wi, nth_error published i = Some wi
                   /\ story wi = JS.join (List.map text (firstn i chunks))
                   /\ JS.startsWith (story (final w published)) (story wi))
  /\ (forall i chunk, nth_error chunks i = Some chunk ->
        exists wi wi', nth_error published i = Some wi
                       /\ nth_error published (S i) = Some wi'
                       /\ story wi' = story wi ++ text chunk)
  /\ story (final w published) = JS.join (List.map text chunks)
  /\ (chunks = onceUponATime ->
        List.map story published
        = [""; "Once "; "Once upon "; "Once upon a time"; "Once upon a time"]
        /\ story (final w published) = "Once upon a time").
Proof.
  intros Hn Hi published.
  assert (E : published
              = ((started w
                  :: List.map (fun s => setStory s (started w))
                              (running "" chunks))
                 ++ [catchFinally
                       (setStory (JS.join (List.map text chunks)) (started w),
                        Normal)])%list).
  { unfold published. rewrite <- (app_nil_r (List.map Yield chunks)).
    apply handleGenerateStory_stream; auto using forAwait_end. }
  assert (HS : List.map story published
              = (("" :: running "" chunks)
                 ++ [JS.join (List.map text chunks)])%list)
    by (rewrite E; apply published_stories).
  assert (F : story (final w published) = JS.join (List.map text chunks)).
  { unfold final. rewrite E, last_last. reflexivity. }
  split; [|split; [|split; [|split]]].
  - rewrite <- (length_map story), HS, length_app. cbn [List.length].
    rewrite running_length. lia.
  - intros i Hle. destruct (nth_error_story published i _
                              (eq_trans (f_equal (fun l => nth_error l i) HS)
                                        (stories_nth chunks i Hle)))
      as (wi & Hwi & Hs).
    exists wi. rewrite F, Hs. auto using join_firstn_prefix.
  - intros i chunk Hc.
    assert (Hlt : i < List.length chunks)
      by (apply nth_error_Some; congruence).
    destruct (nth_error_story published i _
                (eq_trans (f_equal (fun l => nth_error l i) HS)
                          (stories_nth chunks i (Nat.lt_le_incl _ _ Hlt))))
      as (wi & Hwi & Hs).
    destruct (nth_error_story published (S i) _
                (eq_trans (f_equal (fun l => nth_error l (S i)) HS)
                          (stories_nth chunks (S i) Hlt)))
      as (wi' & Hwi' & Hs').
    exists wi, wi'. repeat split; try assumption.
    rewrite Hs, Hs'.
    rewrite <- (firstn_skipn i chunks) at 1.
    rewrite firstn_app, firstn_firstn, length_firstn.
    replace (Nat.min (S i) i) with i by lia.
    replace (S i - Nat.min i (List.length chunks)) with 1 by lia.
    rewrite map_app, join_app. f_equal.
    rewrite <- (firstn_skipn i chunks) in Hc.
    rewrite nth_error_app2 in Hc by (rewrite length_firstn; lia).
    rewrite length_firstn in Hc.
    replace (i - Nat.min i (List.length chunks)) with 0 in Hc by lia.
    destruct (skipn i chunks) as [|c0 l]; [discriminate|].
    simpl in Hc. injection Hc as ->. unfold JS.join. simpl.
    apply append_nil_r.
  - exact F.
  - intros ->. split; [rewrite HS | rewrite F]; reflexivity.
Qed.

Lemma C1_story_appends_chunks_in_order_witness :
  List.map story (handleGenerateStory (Stream (List.map Yield onceUponATime))
                                      lily)
  = [""; "Once "; "Once upon "; "Once upon a time"; "Once upon a time"].
Proof.
  assert (Hn : name lily <> "") by discriminate.
  assert (Hi : interests lily <> "") by discriminate.
  exact (proj1 (proj2 (proj2 (proj2 (proj2
           (C1_story_appends_chunks_in_order lily onceUponATime Hn Hi))))
           eq_refl)).
Defined.

(** Every stream is some chunks, then its end or an exception. *)
Lemma stream_shape (responseStream : list IteratorResult) :
  exists tail c,
    responseStream = (List.map Yield (received responseStream) ++ tail)%list
    /\ forall f v, forAwait tail f v = ([], (v, c)).
Proof.
  induction responseStream as [|[chunk|err] rest IH].
  - exists [], Normal. split; [reflexivity | apply forAwait_end].
  - destruct IH as (tail & c & E & H). exists tail, c. split; [|exact H].
    cbn [received List.map app]. now rewrite <- E.
  - exists (Throw err :: rest), (Abrupt err).
    split; [reflexivity | apply forAwait_throw].
Qed.

(** Whatever the service answers, a validated run publishes the world it
    started in, then worlds that differ from it in the story only, then the
    world the [catch] and [finally] blocks leave. *)
Lemma handleGenerateStory_throws (err : JS.Error) (w : World) :
  name w <> "" -> interests w <> "" ->
  handleGenerateStory (ConstructorThrows err) w
  = [cleared w; catchFinally (cleared w, Abrupt err)].
Proof.
  intros Hn Hi. unfold handleGenerateStory.
  now rewrite (truthy_true _ Hn), (truthy_true _ Hi).
Qed.

(** Whatever becomes of the attempt, a validated run goes through the
    world it entered, then worlds that differ from it in the story only,
    then the world the [catch] and [finally] blocks leave. *)
Lemma handleGenerateStory_shape (w : World) (attempt : Attempt) :
  name w <> "" -> interests w <> "" ->
  exists stories c,
    handleGenerateStory attempt w
    = ((entered attempt w
        :: List.map (fun s => setStory s (entered attempt w)) stories)
       ++ [catchFinally (setStory (last stories "") (entered attempt w), c)])%list.
Proof.
  intros Hn Hi. destruct attempt as [err|[err|items]].
  - exists [], (Abrupt err). now rewrite handleGenerateStory_throws.
  - exists [], (Abrupt err). now rewrite handleGenerateStory_valid.
  - destruct (stream_shape items) as (tail & c & E & H).
    exists (running "" (received items)), c.
    rewrite E at 1. rewrite running_last.
    now apply handleGenerateStory_stream.
Qed.

Lemma published_cases (w w' : World) (attempt : Attempt)
  (stories : list string) (c : Completion) :
  In w' ((entered attempt w
          :: List.map (fun s => setStory s (entered attempt w)) stories)
         ++ [catchFinally (setStory (last stories "") (entered attempt w), c)])%list ->
  exists s, w' = setStory s (entered attempt w)
            \/ w' = catchFinally (setStory s (entered attempt w), c).
Proof.
  intros H. apply in_app_or in H. destruct H as [[<-|H]|[<-|[]]].
  - exists "". left. now destruct attempt.
  - apply in_map_iff in H. destruct H as (s & <- & _). exists s. now left.
  - exists (last stories ""). now right.
Qed.

(** ** Validation *)

(** C2, as the code has it: when the name or the interests are empty the
    handler returns at once, having set the validation message and nothing
    else. No call is made to the service, the loading flag and the story
    are untouched; the error cell does change, so the request state becomes
    [Error] with that message unless a request was loading. *)
Theorem C2_validation_failure_sets_message (w : World) (attempt : Attempt) :
  name w = "" \/ interests w = "" ->
  let published := handleGenerateStory attempt w in
  let w' := final w published in
  published = [setError (Some validationMessage) w]
  /\ requests w' = requests w
  /\ browser w' = browser w
  /\ isLoading w' = isLoading w
  /\ story w' = story w
  /\ error w' = Some validationMessage
  /\ requestState w'
     = if isLoading w then Loading else Error validationMessage.
Proof.
  intros H published w'. unfold w', published.
  rewrite (handleGenerateStory_invalid attempt w H).
  unfold final, requestState. cbn [last]. repeat split.
Qed.

Lemma C2_validation_failure_sets_message_witness :
  handleGenerateStory (Stream (List.map Yield onceUponATime)) initialWorld
  = [setError (Some validationMessage) initialWorld].
Proof.
  exact (proj1 (C2_validation_failure_sets_message initialWorld
                  (Stream (List.map Yield onceUponATime))
                  (or_introl eq_refl))).
Defined.

(** C2 as stated fails: submitting the empty form of the first render
    takes the request state from [Idle] to [Error]. *)
Lemma C2_counterexample :
  name initialWorld = ""
  /\ requestState initialWorld = Idle
  /\ requestState
       (final initialWorld (handleGenerateStory (Stream []) initialWorld))
     = Error validationMessage
  /\ requestState
       (final initialWorld (handleGenerateStory (Stream []) initialWorld))
     <> requestState initialWorld.
Proof. repeat split. discriminate. Qed.

(** ** The start of a request *)

(** C3, as the code has it: a submit that passes validation first goes
    through a world with an empty story, the loading flag set and no
    error, before any chunk is appended; the reading flag, the utterance
    and the speech engine are left as they were, in that world and in all
    that follow. This holds whatever becomes of the attempt to reach the
    service. *)
Theorem C3_start_clears_story_keeps_speech (w : World) (attempt : Attempt) :
  name w <> "" -> interests w <> "" ->
  exists w0 later,
    handleGenerateStory attempt w = w0 :: later
    /\ story w0 = "" /\ isLoading w0 = true /\ error w0 = None
    /\ forall w', In w' (w0 :: later) ->
         isReading w' = isReading w
         /\ utteranceRef w' = utteranceRef w
         /\ queue w' = queue w
         /\ speaking w' = speaking w.
Proof.
  intros Hn Hi.
  destruct (handleGenerateStory_shape w attempt Hn Hi) as (stories & c & E).
  exists (entered attempt w).
  exists (List.map (fun s => setStory s (entered attempt w)) stories
          ++ [catchFinally
                (setStory (last stories "") (entered attempt w), c)])%list.
  split; [exact E|].
  split; [now destruct attempt|]. split; [now destruct attempt|].
  split; [now destruct attempt|].
  intros w' H.
  destruct (published_cases w w' attempt stories c H) as (s & [-> | ->]);
    destruct attempt; try destruct c; now repeat split.
Qed.

Lemma C3_start_clears_story_keeps_speech_witness :
  exists w0 later,
    handleGenerateStory (Stream (List.map Yield onceUponATime)) lilyReading
    = w0 :: later
    /\ story w0 = "" /\ isLoading w0 = true /\ error w0 = None
    /\ forall w', In w' (w0 :: later) ->
         isReading w' = isReading lilyReading
         /\ utteranceRef w' = utteranceRef lilyReading
         /\ queue w' = queue lilyReading
         /\ speaking w' = speaking lilyReading.
Proof.
  apply C3_start_clears_story_keeps_speech; discriminate.
Defined.

(** C3 as stated fails: when a story is being read aloud and the form is
    submitted again, the reading flag is still set in the world the new
    request starts in, and the utterance stays in the engine's queue. *)
Lemma C3_counterexample :
  name lilyReading <> "" /\ interests lilyReading <> ""
  /\ isReading lilyReading = true
  /\ List.map isReading
       (handleGenerateStory (Stream (List.map Yield onceUponATime))
                            lilyReading)
     = [true; true; true; true; true]
  /\ List.map queue
       (firstn 1 (handleGenerateStory (Stream (List.map Yield onceUponATime))
                                      lilyReading))
     = [[ {| utteranceText := "Lily met a dragon." |} ]].
Proof. repeat split; discriminate. Qed.

(** ** The request and its prompt *)

(** C5, as the code has it: a submit with a name and interests calls
    the service exactly once when the client is constructed, whatever the
    service then answers: every world the handler goes through has the one
    new call on record, and its prompt contains the name, the age in
    decimal and the interests as they were typed. When the constructor of
    the client throws, no call is made, and the run ends with the message
    for a failed generation. *)
Theorem C5_one_request_when_client_is_constructed (w : World)
  (attempt : Attempt) :
  name w <> "" -> interests w <> "" ->
  let published := handleGenerateStory attempt w in
  let request := {| model := "gemini-2.5-flash";
                    contents := prompt (name w) (age w) (interests w);
                    config_systemInstruction := systemInstruction |} in
  (constructs attempt = true ->
   (forall w', In w' published ->
               requests w' = (requests w ++ [request])%list)
   /\ requests (final w published) = (requests w ++ [request])%list)
  /\ (constructs attempt = false ->
      (forall w', In w' published -> requests w' = requests w)
      /\ requests (final w published) = requests w
      /\ error (final w published) = Some generationMessage)
  /\ JS.includes (contents request) (name w)
  /\ JS.includes (contents request) (JS.numberToString (age w))
  /\ JS.includes (contents request) (interests w).
Proof.
  intros Hn Hi published request.
  destruct (handleGenerateStory_shape w attempt Hn Hi) as (stories & c & E).
  fold published in E.
  assert (L : In (final w published) published).
  { unfold final. rewrite E at 1. rewrite last_last.
    rewrite E. apply in_or_app. right. now left. }
  split; [|split].
  - intros C.
    assert (A : forall w', In w' published ->
                  requests w' = (requests w ++ [request])%list).
    { intros w' H. rewrite E in H.
      destruct (published_cases w w' attempt stories c H) as (s & [-> | ->]);
        destruct attempt; try discriminate; try destruct c; reflexivity. }
    split; [exact A | now apply A].
  - intros C.
    assert (A : forall w', In w' published -> requests w' = requests w).
    { intros w' H. rewrite E in H.
      destruct (published_cases w w' attempt stories c H) as (s & [-> | ->]);
        destruct attempt; try discriminate; try destruct c; reflexivity. }
    split; [exact A|]. split; [now apply A|].
    destruct attempt as [err|answer]; [|discriminate].
    unfold published, final. now rewrite handleGenerateStory_throws.
  - cbn [contents request]. unfold prompt. repeat split.
    + apply (includes_here "Create a short, magical story for ").
    + exists ("Create a short, magical story for " ++ name w ++ ", who is ").
      eexists. rewrite !append_assoc. reflexivity.
    + exists ("Create a short, magical story for " ++ name w ++ ", who is "
              ++ JS.numberToString (age w) ++ " years old and loves ").
      eexists. rewrite !append_assoc. reflexivity.
Qed.

Lemma C5_one_request_when_client_is_constructed_witness :
  requests (final lily (handleGenerateStory
                          (Stream (List.map Yield onceUponATime)) lily))
  = [ {| model := "gemini-2.5-flash";
         contents := "Create a short, magical story for Lily, who is 7 years old and loves dragons. Make sure Lily is the hero of the story.";
         config_systemInstruction := systemInstruction |} ]
  /\ requests (final lily (handleGenerateStory
                             (ConstructorThrows "no API key") lily))
     = [].
Proof.
  assert (Hn : name lily <> "") by discriminate.
  assert (Hi : interests lily <> "") by discriminate.
  split.
  - exact (proj2 (proj1 (C5_one_request_when_client_is_constructed
                           lily (Stream (List.map Yield onceUponATime))
                           Hn Hi) eq_refl)).
  - exact (proj1 (proj2 (proj1 (proj2
             (C5_one_request_when_client_is_constructed
                lily (ConstructorThrows "no API key") Hn Hi)) eq_refl))).
Defined.

(** C5 as stated fails: the form is filled in, the constructor of the
    client throws (as it does without an API key), and the run ends
    without any call to the service, with the error message set. *)
Lemma C5_counterexample :
  name lily <> "" /\ interests lily <> ""
  /\ requests
       (final lily
          (handleGenerateStory
             (ConstructorThrows
                "An API Key must be set when running in a browser") lily))
     = []
  /\ error
       (final lily
          (handleGenerateStory
             (ConstructorThrows
                "An API Key must be set when running in a browser") lily))
     = Some generationMessage.
Proof. repeat split; discriminate. Qed.

(** ** The end of a request *)

(** C4: a stream that is exhausted leaves the request idle (not loading, no
    error). A stream that throws after some chunks leaves the request in
    [Error] with the message shown to the user; the story is then the
    concatenation of the chunks that came before the exception, each world
    published on the way holds a concatenation of the first of them, and
    nothing the service would have sent afterwards is appended. A call
    that is rejected before any chunk ends in the same [Error], with an
    empty story. *)
Theorem C4_exhaustion_idle_failure_error (w : World) (chunks : list Chunk) :
  name w <> "" -> interests w <> "" ->
  (let published := handleGenerateStory (Stream (List.map Yield chunks)) w in
   let w' := final w published in
   isLoading w' = false /\ error w' = None /\ requestState w' = Idle)
  /\ (forall err rest,
        let published :=
          handleGenerateStory
            (Stream (List.map Yield chunks ++ Throw err :: rest)) w in
        let w' := final w published in
        requestState w' = Error generationMessage
        /\ isLoading w' = false
        /\ error w' = Some generationMessage
        /\ story w' = JS.join (List.map text chunks)
        /\ List.length published = List.length chunks + 2
        /\ (forall i, i <= List.length chunks ->
              exists wi, nth_error published i = Some wi
                         /\ story wi
                            = JS.join (List.map text (firstn i chunks))))
  /\ (forall err,
        let published := handleGenerateStory (Rejected err) w in
        let w' := final w published in
        requestState w' = Error generationMessage
        /\ isLoading w' = false
        /\ error w' = Some generationMessage
        /\ story w' = "").
Proof.
  intros Hn Hi. split; [|split].
  - intros published w'. unfold w', published, final.
    rewrite <- (app_nil_r (List.map Yield chunks)).
    rewrite (handleGenerateStory_stream w chunks [] Normal Hn Hi forAwait_end).
    rewrite last_last. repeat split.
  - intros err rest published w'.
    assert (E := handleGenerateStory_stream w chunks (Throw err :: rest)
                   (Abrupt err) Hn Hi (forAwait_throw err rest)).
    fold published in E.
    assert (HS := published_stories w chunks (Abrupt err)).
    rewrite <- E in HS.
    unfold w', final. rewrite E at 1 2 3 4. rewrite last_last.
    split; [reflexivity|]. split; [reflexivity|].
    split; [reflexivity|]. split; [reflexivity|]. split.
    + rewrite <- (length_map story), HS, length_app. cbn [List.length].
      rewrite running_length. lia.
    + intros i Hle.
      destruct (nth_error_story published i _
                  (eq_trans (f_equal (fun l => nth_error l i) HS)
                            (stories_nth chunks i Hle)))
        as (wi & Hwi & Hs).
      now exists wi.
  - intros err published w'. unfold w', published, final.
    rewrite handleGenerateStory_valid by assumption. repeat split.
Qed.

Lemma C4_exhaustion_idle_failure_error_witness :
  List.map (fun w' => (requestState w', story w'))
    (handleGenerateStory
       (Stream [Yield {| text := "Once " |}; Yield {| text := "upon " |};
                Throw "connection lost"; Yield {| text := "a time" |}])
       lily)
  = [(Loading, ""); (Loading, "Once "); (Loading, "Once upon ");
     (Error generationMessage, "Once upon ")]
  /\ requestState
       (final lily
          (handleGenerateStory
             (Stream (List.map Yield [{| text := "Once " |};
                                      {| text := "upon " |}]
                      ++ [Throw "connection lost";
                          Yield {| text := "a time" |}])) lily))
     = Error generationMessage.
Proof.
  split; [reflexivity|].
  assert (Hn : name lily <> "") by discriminate.
  assert (Hi : interests lily <> "") by discriminate.
  exact (proj1 (proj1 (proj2 (C4_exhaustion_idle_failure_error
                                lily [{| text := "Once " |};
                                      {| text := "upon " |}] Hn Hi))
                  "connection lost" [Yield {| text := "a time" |}])).
Defined.

(** ** Reading aloud *)

(** C7, as the code has it: when the engine reports that it is speaking,
    stopping cancels the playback (the queue is emptied), clears the
    utterance and ends in the state not reading; when the engine does not
    report so, stopping does nothing at all, and the reading flag stays as
    it was. *)
Theorem C7_stop_cancels_only_when_speaking (w : World) :
  (speaking w = true ->
   let w' := handleStopReading w in
   queue w' = [] /\ speaking w' = false
   /\ isReading w' = false /\ utteranceRef w' = None)
  /\ (speaking w = false -> handleStopReading w = w).
Proof.
  unfold handleStopReading. split; intros ->; repeat split.
Qed.

Lemma C7_stop_cancels_only_when_speaking_witness :
  isReading lilySpeaking = true
  /\ queue (handleStopReading lilySpeaking) = []
  /\ isReading (handleStopReading lilySpeaking) = false.
Proof.
  split; [reflexivity|].
  destruct (proj1 (C7_stop_cancels_only_when_speaking lilySpeaking) eq_refl)
    as (Hq & _ & Hr & _).
  exact (conj Hq Hr).
Defined.

(** C7 as stated fails: the utterance was handed to the engine, which does
    not report speaking (it has not started on it); stopping then leaves
    the reading flag set. *)
Lemma C7_counterexample :
  speaking lilyReading = false
  /\ isReading lilyReading = true
  /\ isReading (handleStopReading lilyReading) = true
  /\ handleStopReading lilyReading = lilyReading.
Proof. repeat split. Qed.


Lemma handleReadAloud_speaks (rendered w : World) :
  isReading rendered = false -> story rendered <> "" ->
  handleReadAloud rendered w
  = setIsReading true
      (speechSynthesis_speak
         {| utteranceText := story rendered |}
         (setUtteranceRef (Some {| utteranceText := story rendered |}) w)).
Proof.
  intros Hr Hs. unfold handleReadAloud.
  now rewrite Hr, (truthy_true _ Hs).
Qed.





(** When the engine is done with the utterance, or fails on it, the
    reading flag is cleared, and reading aloud starts a playback again. *)
Lemma read_again_after_callback (w : World) :
  isReading (utterance_onend w) = false
  /\ isReading (utterance_onerror w) = false
  /\ error (utterance_onerror w) = Some speechMessage
  /\ (story w <> "" ->
      queue (handleReadAloud (utterance_onend w) (utterance_onend w))
      = (queue w ++ [{| utteranceText := story w |}])%list).
Proof.
  repeat split. intros Hs.
  now rewrite (handleReadAloud_speaks (utterance_onend w) _ eq_refl Hs).
Qed.

(** ** Substrings *)

Lemma length_append (a b : string) : length (a ++ b) = length a + length b.
Proof. induction a; simpl; congruence. Qed.

Lemma substring_nil (n m : nat) : substring n m "" = "".
Proof. destruct n, m; reflexivity. Qed.

Lemma substring_0_length (s : string) : substring 0 (length s) s = s.
Proof. induction s; simpl; congruence. Qed.

Lemma substringFrom_0 (s : string) : JS.substringFrom 0 s = s.
Proof.
  unfold JS.substringFrom. rewrite Nat.sub_0_r. apply substring_0_length.
Qed.

Lemma substringFrom_S (q : nat) (c : ascii) (s : string) :
  JS.substringFrom (S q) (String c s) = JS.substringFrom q s.
Proof. reflexivity. Qed.

Lemma substringFrom_nil (q : nat) : JS.substringFrom q "" = "".
Proof. apply substring_nil. Qed.

Lemma substring_substringFrom (p i n : nat) (s : string) :
  substring i n (JS.substringFrom p s) = substring (p + i) n s.
Proof.
  revert p; induction s as [|c s IH]; intros p.
  - now rewrite substringFrom_nil, !substring_nil.
  - destruct p as [|p]; [now rewrite substringFrom_0|].
    rewrite substringFrom_S, IH. reflexivity.
Qed.

Lemma length_substring (p m : nat) (s : string) :
  p + m <= length s -> length (substring p m s) = m.
Proof.
  revert p m; induction s as [|c s IH]; intros p m H; simpl in H.
  - assert (p = 0) by lia. assert (m = 0) by lia. now subst.
  - destruct p as [|p].
    + destruct m as [|m]; [reflexivity|]. simpl. rewrite IH; lia.
    + simpl. apply IH. lia.
Qed.

Lemma length_substringFrom (q : nat) (s : string) :
  length (JS.substringFrom q s) = length s - q.
Proof.
  revert q; induction s as [|c s IH]; intros q.
  - now rewrite substringFrom_nil.
  - destruct q as [|q]; [now rewrite substringFrom_0|].
    rewrite substringFrom_S, IH. reflexivity.
Qed.

Lemma substring_add (p m1 m2 : nat) (s : string) :
  substring p (m1 + m2) s = substring p m1 s ++ substring (p + m1) m2 s.
Proof.
  revert p m1; induction s as [|c s IH]; intros p m1.
  - now rewrite !substring_nil.
  - destruct p as [|p].
    + destruct m1 as [|m1]; [reflexivity|].
      cbn [Nat.add substring append]. f_equal. apply (IH 0).
    + cbn [Nat.add substring]. apply IH.
Qed.

(** The text from [p] on is the piece from [p] to [q], then the text from
    [q] on. *)
Lemma substringFrom_cut (p q : nat) (s : string) :
  p <= q <= length s ->
  JS.substringFrom p s = substring p (q - p) s ++ JS.substringFrom q s.
Proof.
  intros H. unfold JS.substringFrom.
  replace (length s - p) with ((q - p) + (length s - q)) by lia.
  rewrite substring_add. do 2 f_equal. lia.
Qed.

Lemma substringFrom_get (y : nat) (s : string) :
  match get y s with
  | Some c => JS.substringFrom y s = String c (JS.substringFrom (y + 1) s)
  | None => JS.substringFrom y s = ""
  end.
Proof.
  revert y; induction s as [|c s IH]; intros y.
  - destruct y; reflexivity.
  - destruct y as [|y].
    + cbn [get]. rewrite substringFrom_0. cbn [Nat.add].
      now rewrite substringFrom_S, substringFrom_0.
    + cbn [get Nat.add]. rewrite !substringFrom_S. apply IH.
Qed.

Lemma length_toLowerCase (s : string) : length (JS.toLowerCase s) = length s.
Proof. induction s; simpl; congruence. Qed.

Lemma append_inj_length (a b a' b' : string) :
  length a = length a' -> a ++ b = a' ++ b' -> a = a' /\ b = b'.
Proof.
  revert a'; induction a as [|c a IH]; intros [|c' a'] Hl H;
    simpl in Hl; try discriminate.
  - now split.
  - simpl in H. injection H as -> H. destruct (IH a' ltac:(lia) H).
    split; congruence.
Qed.

(** ** White space *)

Lemma trimStart_blank (s : string) : blank s = true -> JS.trimStart s = "".
Proof.
  induction s as [|c s IH]; [reflexivity|]. simpl.
  destruct (JS.isWhiteSpace c); [exact IH | discriminate].
Qed.

Lemma trimStart_not_blank (s : string) :
  blank s = false ->
  exists c rest, JS.trimStart s = String c rest /\ JS.isWhiteSpace c = false.
Proof.
  induction s as [|c s IH]; [discriminate|]. simpl.
  destruct (JS.isWhiteSpace c) eqn:E; [exact IH|].
  intros _. now exists c, s.
Qed.

Lemma trimEnd_not_space (c : ascii) (rest : string) :
  JS.isWhiteSpace c = false -> JS.truthy (JS.trimEnd (String c rest)) = true.
Proof.
  intros H. cbn [JS.trimEnd]. rewrite H. now destruct (JS.trimEnd rest).
Qed.

(** [!name.trim()] holds exactly for the blank names. *)
Lemma truthy_trim (s : string) : JS.truthy (JS.trim s) = negb (blank s).
Proof.
  unfold JS.trim. destruct (blank s) eqn:B.
  - now rewrite trimStart_blank.
  - destruct (trimStart_not_blank s B) as (c & rest & -> & H).
    now apply trimEnd_not_space.
Qed.

Lemma not_blank_not_empty (s : string) : blank s = false -> s <> "".
Proof. now destruct s. Qed.

(** ** The pattern of a plain name *)

Lemma plain_not_parenthesis (c : ascii) :
  JS.isSyntaxCharacter c = false ->
  Ascii.eqb c "(" = false /\ Ascii.eqb c ")" = false.
Proof.
  intros H. split.
  - destruct (Ascii.eqb_spec c "("); [subst; discriminate | reflexivity].
  - destruct (Ascii.eqb_spec c ")"); [subst; discriminate | reflexivity].
Qed.

Lemma parsePattern_plain (nm rest : string) (enclosing : list JS.Pattern)
  (current : JS.Pattern) :
  plainCharacters nm = true ->
  JS.parsePattern (nm ++ rest) enclosing current
  = JS.parsePattern rest enclosing (literal current nm).
Proof.
  revert current; induction nm as [|c nm IH]; intros current H;
    [reflexivity|].
  simpl in H. apply andb_prop in H. destruct H as [Hc H].
  apply negb_true_iff in Hc.
  destruct (plain_not_parenthesis c Hc) as [H1 H2].
  cbn [append JS.parsePattern literal]. rewrite H1, H2, Hc. now apply IH.
Qed.

Lemma newRegExp_plain (nm : string) :
  plainCharacters nm = true ->
  JS.newRegExp ("(" ++ nm ++ ")") "gi" = Some (nameRegExp nm).
Proof.
  intros H. unfold JS.newRegExp.
  change (JS.parsePattern ("(" ++ nm ++ ")") [] JS.Empty)
    with (JS.parsePattern (nm ++ ")") [JS.Empty] JS.Empty).
  now rewrite parsePattern_plain.
Qed.

Lemma matchPattern_literal (ic : bool) (nm : string) (done : JS.Pattern)
  (s : string) (x : nat) :
  JS.matchPattern ic (literal done nm) s x
  = match JS.matchPattern ic done s x with
    | None => None
    | Some (y, captures) =>
        if matchPrefix ic nm (JS.substringFrom y s)
        then Some (y + length nm, captures)
        else None
    end.
Proof.
  revert done; induction nm as [|c nm IH]; intros done.
  - cbn [literal matchPrefix length].
    destruct (JS.matchPattern ic done s x) as [[y captures]|];
      [now rewrite Nat.add_0_r | reflexivity].
  - cbn [literal]. rewrite IH. cbn [JS.matchPattern].
    destruct (JS.matchPattern ic done s x) as [[y captures]|];
      [|reflexivity].
    pose proof (substringFrom_get y s) as G.
    destruct (get y s) as [c'|]; rewrite G; cbn [matchPrefix];
      [|reflexivity].
    destruct (JS.unitMatches ic c c'); cbn [andb]; [|reflexivity].
    rewrite app_nil_r. cbn [length].
    replace (y + 1 + length nm) with (y + S (length nm)) by lia.
    reflexivity.
Qed.

(** One sticky exec of the name's expression at [q]. *)
Lemma exec_nameRegExp (nm s : string) (q : nat) :
  JS.exec (nameRegExp nm) s q
  = if matchPrefix true nm (JS.substringFrom q s)
    then Some (q + length nm, [substring q (length nm) s])
    else None.
Proof.
  unfold JS.exec, nameRegExp. cbn [JS.pattern JS.ignoreCase JS.matchPattern].
  rewrite matchPattern_literal. cbn [JS.matchPattern].
  destruct (matchPrefix true nm (JS.substringFrom q s)); [|reflexivity].
  cbn [app]. now replace (q + length nm - q) with (length nm) by lia.
Qed.

(** ** Case *)

Lemma allUnits_complete (c : ascii) : In c allUnits.
Proof.
  unfold allUnits. apply in_map_iff. exists (nat_of_ascii c). split.
  - apply ascii_nat_embedding.
  - apply in_seq. pose proof (nat_ascii_bounded c). lia.
Qed.

Lemma unitMatches_table :
  forallb (fun p =>
             forallb (fun c =>
                        Bool.eqb (JS.unitMatches true p c)
                                 (Ascii.eqb (JS.toLowerCaseUnit p)
                                            (JS.toLowerCaseUnit c)))
                     allUnits)
          allUnits = true.
Proof. vm_compute. reflexivity. Qed.

(** On the code units 0..255, two units are alike for a regular expression
    that ignores case exactly when they have the same lower case. *)
Lemma unitMatches_toLowerCase (p c : ascii) :
  JS.unitMatches true p c = true
  <-> JS.toLowerCaseUnit p = JS.toLowerCaseUnit c.
Proof.
  pose proof unitMatches_table as T.
  rewrite forallb_forall in T. specialize (T p (allUnits_complete p)).
  rewrite forallb_forall in T. specialize (T c (allUnits_complete c)).
  apply Bool.eqb_prop in T. rewrite T. apply Ascii.eqb_eq.
Qed.

Lemma matchPrefix_spec (nm input : string) :
  matchPrefix true nm input = true
  <-> length nm <= length input
      /\ sameIgnoringCase (substring 0 (length nm) input) nm.
Proof.
  unfold sameIgnoringCase.
  revert input; induction nm as [|p nm IH]; intros input.
  - cbn [matchPrefix length]. split; [intros _|reflexivity].
    split; [lia|]. now destruct input.
  - destruct input as [|c input]; cbn [matchPrefix length].
    + split; [discriminate | intros [H _]; lia].
    + rewrite andb_true_iff, unitMatches_toLowerCase, IH.
      cbn [substring JS.toLowerCase]. split.
      * intros (E & L & H). split; [lia | congruence].
      * intros (L & H). injection H as E H. repeat split; auto; lia.
Qed.

Lemma sameIgnoringCase_length (a b : string) :
  sameIgnoringCase a b -> length a = length b.
Proof.
  unfold sameIgnoringCase. intros H.
  now rewrite <- (length_toLowerCase a), H, length_toLowerCase.
Qed.

Lemma tag_emphasized (nm hit : string) :
  sameIgnoringCase hit nm -> tag nm hit = emphasized hit.
Proof.
  unfold tag, sameIgnoringCase. intros ->. now rewrite String.eqb_refl.
Qed.

Lemma length_pos (s : string) : s <> "" -> 0 < length s.
Proof. destruct s; simpl; [congruence | lia]. Qed.

Lemma matchPrefix_nil (ic : bool) (nm : string) :
  nm <> "" -> matchPrefix ic nm "" = false.
Proof. destruct nm; [congruence | reflexivity]. Qed.

Lemma substring_zero (p : nat) (s : string) : substring p 0 s = "".
Proof.
  revert p; induction s as [|c s IH]; intros [|p]; try reflexivity.
  apply IH.
Qed.

(** ** The split, for a name that is not empty *)

Section PlainName.

Variable nm : string.
Hypothesis nm_not_empty : nm <> "".

Let nm_length : 0 < length nm := length_pos nm nm_not_empty.

(** A sticky match of the name's pattern at [q] is an occurrence of the
    name at [q]. *)
Lemma matchPrefix_occursAt (s : string) (q : nat) :
  matchPrefix true nm (JS.substringFrom q s) = true <-> occursAt nm s q.
Proof.
  rewrite matchPrefix_spec, length_substringFrom, substring_substringFrom.
  rewrite Nat.add_0_r. unfold occursAt. intuition lia.
Qed.

Lemma occursAt_substringFrom (s : string) (p i : nat) :
  occursAt nm (JS.substringFrom p s) i -> occursAt nm s (p + i).
Proof.
  unfold occursAt.
  rewrite length_substringFrom, substring_substringFrom. intuition lia.
Qed.

Lemma no_occurrence_at_end (s : string) (i : nat) :
  length s <= i -> ~ occursAt nm s i.
Proof. intros Hi [H _]. lia. Qed.

(** A piece that is empty, or starts where the name does not occur, is
    tagged plain. *)
Lemma tag_piece (s : string) (p m : nat) :
  p + m <= length s -> (0 < m -> ~ occursAt nm s p) ->
  tag nm (substring p m s) = plain (substring p m s).
Proof.
  intros Hle Hno. unfold tag.
  destruct (String.eqb_spec (JS.toLowerCase (substring p m s))
                             (JS.toLowerCase nm)) as [E|]; [|reflexivity].
  pose proof (sameIgnoringCase_length _ _ E) as L.
  rewrite length_substring in L by assumption.
  exfalso. apply Hno; [lia|]. unfold occursAt. rewrite <- L.
  split; [lia | exact E].
Qed.

(** The last piece, when no match is left to try. *)
Lemma splitLoop_last (s : string) (p q : nat) :
  p <= q <= length s -> (q <? length s)%nat = false ->
  (forall i, p <= i < q -> ~ occursAt nm s i) ->
  GreedySplit nm (JS.substringFrom p s)
              (List.map (tag nm) [substring p (length s - p) s]).
Proof.
  intros Hpq Hlt Hno. apply Nat.ltb_ge in Hlt. cbn [List.map].
  rewrite tag_piece; [| lia | intros; apply Hno; lia].
  apply split_none. intros i Hi. apply occursAt_substringFrom in Hi.
  destruct (Nat.lt_ge_cases (p + i) q) as [Hl|Hg].
  - apply (Hno (p + i)); [lia | assumption].
  - apply (no_occurrence_at_end s (p + i)); [lia | assumption].
Qed.

(** The loop of [split], run on the expression of the name with enough
    fuel, ends, and cuts the text from [p] on as the design says. The name
    does not occur between [p] and [q]: there a match was tried and
    failed. *)
Lemma splitLoop_greedy (s : string) (fuel p q : nat) :
  p <= q <= length s ->
  length s - q <= fuel ->
  (forall i, p <= i < q -> ~ occursAt nm s i) ->
  exists parts,
    JS.splitLoop fuel (nameRegExp nm) s p q = Some parts
    /\ GreedySplit nm (JS.substringFrom p s) (List.map (tag nm) parts).
Proof.
  revert p q.
  induction fuel as [|fuel IH]; intros p q Hpq Hfuel Hno; cbn [JS.splitLoop].
  - destruct (q <? length s)%nat eqn:Hlt.
    + apply Nat.ltb_lt in Hlt. lia.
    + eexists. split; [reflexivity|]. now apply (splitLoop_last s p q).
  - destruct (q <? length s)%nat eqn:Hlt.
    2:{ eexists. split; [reflexivity|]. now apply (splitLoop_last s p q). }
    apply Nat.ltb_lt in Hlt. rewrite exec_nameRegExp.
    destruct (matchPrefix true nm (JS.substringFrom q s)) eqn:M.
    + apply matchPrefix_occursAt in M. pose proof M as [Hfit Hsame].
      replace (Nat.min (q + length nm) (length s)) with (q + length nm)
        by lia.
      replace (q + length nm =? p)%nat with false
        by (symmetry; apply Nat.eqb_neq; lia).
      destruct (IH (q + length nm) (q + length nm)) as (rest & -> & G);
        [lia | lia | intros; lia |].
      eexists. split; [reflexivity|].
      cbn [app List.map].
      rewrite tag_piece; [| lia | intros; apply Hno; lia].
      rewrite (tag_emphasized nm _ Hsame).
      assert (E : JS.substringFrom p s
                  = substring p (q - p) s ++ substring q (length nm) s
                    ++ JS.substringFrom (q + length nm) s).
      { rewrite (substringFrom_cut p q) by lia.
        rewrite (substringFrom_cut q (q + length nm)) by lia.
        now replace (q + length nm - q) with (length nm) by lia. }
      rewrite E. apply split_at; [assumption | | assumption].
      rewrite <- E. intros i Hi Ho.
      rewrite length_substring in Hi by lia.
      apply occursAt_substringFrom in Ho.
      apply (Hno (p + i)); [lia | assumption].
    + apply (IH p (q + 1)); [lia | lia |].
      intros i Hi. destruct (Nat.eq_dec i q) as [->|];
        [|apply Hno; lia].
      intros Ho. apply matchPrefix_occursAt in Ho. congruence.
Qed.

(** [split] on the expression of the name returns, and cuts the text as
    the design says. *)
Lemma split_greedy (s : string) :
  exists parts,
    JS.split s (nameRegExp nm) = Some parts
    /\ GreedySplit nm s (List.map (tag nm) parts).
Proof.
  unfold JS.split.
  destruct (length s =? 0)%nat eqn:Hz.
  - apply Nat.eqb_eq in Hz. destruct s; [|discriminate].
    rewrite exec_nameRegExp, substringFrom_nil, matchPrefix_nil
      by assumption.
    exists [""]. split; [reflexivity|].
    change [""] with [substring 0 0 ""]. cbn [List.map].
    rewrite tag_piece; [| simpl; lia | lia].
    apply split_none. intros i. apply no_occurrence_at_end. simpl; lia.
  - destruct (splitLoop_greedy s (2 * length s) 0 0)
      as (parts & E & G); [lia | lia | intros; lia |].
    rewrite substringFrom_0 in G. now exists parts.
Qed.

End PlainName.

Lemma segments_mapFrom (nm : string) (parts : list string) (k : nat) :
  List.map segmentOf
    (JS.mapFrom (fun part index =>
                   if (JS.toLowerCase part =? JS.toLowerCase nm)%string
                   then Strong index part
                   else Fragment index part) k parts)
  = List.map (tag nm) parts.
Proof.
  revert k; induction parts as [|part parts IH]; intros k; [reflexivity|].
  cbn [JS.mapFrom List.map]. rewrite IH. f_equal. unfold tag.
  now destruct (JS.toLowerCase part =? JS.toLowerCase nm)%string.
Qed.

(** What [highlightName] returns for a name that is not blank and has no
    syntax character. *)
Lemma highlightName_plain (text nm : string) :
  blank nm = false -> plainCharacters nm = true ->
  exists node,
    highlightName text nm = Some node
    /\ GreedySplit nm text (segments node).
Proof.
  intros B P. unfold highlightName.
  rewrite truthy_trim, B, (newRegExp_plain nm P). cbn [negb].
  destruct (split_greedy nm (not_blank_not_empty nm B) text)
    as (parts & -> & G).
  eexists. split; [reflexivity|].
  cbn [segments]. unfold JS.map. now rewrite segments_mapFrom.
Qed.

Lemma GreedySplit_join (nm text : string) (segs : list Segment) :
  GreedySplit nm text segs ->
  JS.join (List.map segmentText segs) = text.
Proof.
  induction 1 as [text _ | before hit rest segs _ _ _ IH].
  - unfold JS.join. simpl. apply append_nil_r.
  - cbn [List.map segmentText]. unfold JS.join in *. cbn [fold_right].
    now rewrite IH.
Qed.

(** ** [split] always returns *)

Lemma matchPattern_advances (ic : bool) (r : JS.Pattern) (s : string)
  (x e : nat) (captures : list string) :
  JS.matchPattern ic r s x = Some (e, captures) -> x <= e.
Proof.
  revert x e captures;
    induction r as [|c|a IHa b IHb|body IH]; intros x e captures;
    cbn [JS.matchPattern].
  - intros H. injection H as <- _. lia.
  - destruct (get x s) as [c'|]; [|discriminate].
    destruct (JS.unitMatches ic c c'); [|discriminate].
    intros H. injection H as <- _. lia.
  - destruct (JS.matchPattern ic a s x) as [[y ca]|] eqn:A; [|discriminate].
    destruct (JS.matchPattern ic b s y) as [[e' cb]|] eqn:B; [|discriminate].
    intros H. injection H as <- _.
    apply IHa in A. apply IHb in B. lia.
  - destruct (JS.matchPattern ic body s x) as [[e' cs]|] eqn:B;
      [|discriminate].
    intros H. injection H as <- _. now apply IH in B.
Qed.

(** Each turn of the loop moves [q] on, or moves [p] up to [q]: twice the
    distance of [q] to the end, and one more when [p] is behind [q], is
    fuel enough. *)
Lemma splitLoop_returns (rx : JS.RegExp) (s : string) (fuel p q : nat) :
  p <= q ->
  2 * (length s - q) + (if (p <? q)%nat then 1 else 0) <= fuel ->
  exists parts, JS.splitLoop fuel rx s p q = Some parts.
Proof.
  revert p q; induction fuel as [|fuel IH]; intros p q Hpq Hfuel;
    cbn [JS.splitLoop]; destruct (q <? length s)%nat eqn:Hlt;
    try (eexists; reflexivity).
  - apply Nat.ltb_lt in Hlt. lia.
  - apply Nat.ltb_lt in Hlt.
    assert (Hnext : exists parts,
               JS.splitLoop fuel rx s p (q + 1) = Some parts).
    { apply IH; [lia|].
      replace (p <? q + 1)%nat with true
        by (symmetry; apply Nat.ltb_lt; lia).
      lia. }
    destruct (JS.exec rx s q) as [[lastIndex captures]|] eqn:X;
      [|exact Hnext].
    apply matchPattern_advances in X.
    destruct (Nat.min lastIndex (length s) =? p)%nat eqn:Hp; [exact Hnext|].
    apply Nat.eqb_neq in Hp.
    destruct (IH (Nat.min lastIndex (length s))
                 (Nat.min lastIndex (length s))) as (rest & ->);
      [lia | | eexists; reflexivity].
    rewrite Nat.ltb_irrefl.
    destruct (p <? q)%nat eqn:Hq;
      [apply Nat.ltb_lt in Hq | apply Nat.ltb_ge in Hq]; lia.
Qed.

Lemma split_returns (s : string) (rx : JS.RegExp) :
  exists parts, JS.split s rx = Some parts.
Proof.
  unfold JS.split. destruct (length s =? 0)%nat.
  - destruct (JS.exec rx s 0); eexists; reflexivity.
  - apply splitLoop_returns; [lia|]. cbn [Nat.ltb Nat.leb]. lia.
Qed.

(** ** The split of the design is a function of the text *)

Lemma substring_prefix (b c : string) : substring 0 (length b) (b ++ c) = b.
Proof.
  induction b as [|x b IH]; cbn [length append substring].
  - now destruct c.
  - now rewrite IH.
Qed.

Lemma substring_middle (a b c : string) :
  substring (length a) (length b) (a ++ b ++ c) = b.
Proof.
  induction a as [|x a IH]; [exact (substring_prefix b c) | exact IH].
Qed.

Lemma occursAt_hit (nm before hit rest : string) :
  sameIgnoringCase hit nm ->
  occursAt nm (before ++ hit ++ rest) (length before).
Proof.
  intros H. pose proof (sameIgnoringCase_length _ _ H) as L.
  unfold occursAt. rewrite <- L, substring_middle, !length_append.
  split; [lia | assumption].
Qed.

Lemma GreedySplit_functional (nm text : string) (l1 l2 : list Segment) :
  GreedySplit nm text l1 -> GreedySplit nm text l2 -> l1 = l2.
Proof.
  intros H1. revert l2.
  induction H1 as [text Hno | before hit rest segs Hhit Hleft _ IH];
    intros l2 H2.
  - inversion H2 as [t Hno' | before' hit' rest' segs' Hhit' _ _ E];
      [reflexivity|].
    subst text. exfalso.
    exact (Hno (length before') (occursAt_hit nm before' hit' rest' Hhit')).
  - inversion H2 as [t Hno' | before' hit' rest' segs' Hhit' Hleft' H' E].
    + exfalso.
      exact (Hno' (length before) (occursAt_hit nm before hit rest Hhit)).
    + assert (L : length before' = length before).
      { destruct (Nat.lt_trichotomy (length before') (length before))
          as [Hlt | [Heq | Hgt]]; [exfalso | exact Heq | exfalso].
        - apply (Hleft (length before') Hlt). rewrite <- E.
          now apply occursAt_hit.
        - apply (Hleft' (length before) Hgt). rewrite E.
          now apply occursAt_hit. }
      destruct (append_inj_length _ _ _ _ L E) as [-> E'].
      assert (L' : length hit' = length hit).
      { rewrite (sameIgnoringCase_length _ _ Hhit).
        apply (sameIgnoringCase_length _ _ Hhit'). }
      destruct (append_inj_length _ _ _ _ L' E') as [-> ->].
      now rewrite (IH segs' H').
Qed.

(** ** Highlighting *)




(** C9: for a name that is empty or made of white space only,
    [highlightName] returns the text itself, that is one plain segment
    that holds the whole text. *)
Theorem C9_blank_name_one_plain_segment (text nm : string) :
  blank nm = true ->
  highlightName text nm = Some (TextNode text)
  /\ option_map segments (highlightName text nm) = Some [plain text].
Proof.
  intros B. unfold highlightName. now rewrite truthy_trim, B.
Qed.

Lemma C9_blank_name_one_plain_segment_witness :
  option_map segments (highlightName "Lily met a dragon." "")
  = Some [plain "Lily met a dragon."]
  /\ option_map segments
       (highlightName "Lily met a dragon."
                      (String " " (String "009" (String "160" ""))))
     = Some [plain "Lily met a dragon."].
Proof.
  split.
  - exact (proj2 (C9_blank_name_one_plain_segment
                    "Lily met a dragon." "" eq_refl)).
  - exact (proj2 (C9_blank_name_one_plain_segment
                    "Lily met a dragon."
                    (String " " (String "009" (String "160" "")))
                    eq_refl)).
Defined.

(** C10: for a name that is not blank and has no syntax character of
    regular expressions, [highlightName] returns segments whose texts, put
    together in order, are the text: nothing is added, lost or moved. The
    name goes into the pattern as it is, so the condition on the syntax
    characters is needed: with the name "(a)" the pattern has two groups,
    each match is captured twice, and "xay" comes back as "x", "a", "a",
    "y". *)
Theorem C10_segments_concatenate_to_text (text nm : string) :
  blank nm = false -> plainCharacters nm = true ->
  (exists node,
      highlightName text nm = Some node
      /\ JS.join (List.map segmentText (segments node)) = text)
  /\ (blank "(a)" = false
      /\ plainCharacters "(a)" = false
      /\ option_map segments (highlightName "xay" "(a)")
         = Some [plain "x"; plain "a"; plain "a"; plain "y"]
      /\ JS.join (List.map segmentText
                           [plain "x"; plain "a"; plain "a"; plain "y"])
         <> "xay").
Proof.
  intros B P. split.
  - destruct (highlightName_plain text nm B P) as (node & E & G).
    exists node. split; [assumption|]. exact (GreedySplit_join nm text _ G).
  - repeat split. discriminate.
Qed.

Lemma C10_segments_concatenate_to_text_witness :
  exists node,
    highlightName "Lily met a dragon. lily smiled." "Lily" = Some node
    /\ JS.join (List.map segmentText (segments node))
       = "Lily met a dragon. lily smiled.".
Proof.
  exact (proj1 (C10_segments_concatenate_to_text
                  "Lily met a dragon. lily smiled." "Lily"
                  eq_refl eq_refl)).
Defined.

(** * Further properties *)

(** ** Highlighting: what the segments are *)

Lemma substring_append_l (a b : string) (i n : nat) :
  i + n <= length a -> substring i n (a ++ b) = substring i n a.
Proof.
  revert i n; induction a as [|c a IH]; intros i n H; simpl in H.
  - assert (i = 0) by lia. assert (n = 0) by lia. subst.
    now rewrite substring_zero.
  - destruct i as [|i].
    + destruct n as [|n]; [reflexivity|].
      cbn [append substring]. f_equal. apply IH. lia.
    + cbn [append substring]. apply IH. lia.
Qed.

Lemma occursAt_append_l (nm a b : string) (i : nat) :
  occursAt nm a i -> occursAt nm (a ++ b) i.
Proof.
  intros [H1 H2]. split.
  - rewrite length_append. lia.
  - now rewrite substring_append_l.
Qed.

Lemma GreedySplit_plain (nm text : string) (segs : list Segment) :
  nm <> "" -> GreedySplit nm text segs ->
  forall s, In (plain s) segs -> forall i, ~ occursAt nm s i.
Proof.
  intros Hne G. pose proof (length_pos nm Hne) as Hn.
  induction G as [text Hno | before hit rest segs _ Hleft _ IH];
    intros s Hin i.
  - destruct Hin as [[= <-] | []]. apply Hno.
  - destruct Hin as [[= <-] | [[=] | Hin]]; [|now apply IH].
    intros Ho. apply (Hleft i).
    + destruct Ho as [Ho _]. lia.
    + now apply occursAt_append_l.
Qed.

Lemma GreedySplit_emphasized (nm text : string) (segs : list Segment) :
  GreedySplit nm text segs ->
  forall s, In (emphasized s) segs -> sameIgnoringCase s nm.
Proof.
  induction 1 as [text _ | before hit rest segs Hhit _ _ IH]; intros s Hin.
  - destruct Hin as [[=] | []].
  - destruct Hin as [[=] | [[= <-] | Hin]]; [assumption | now apply IH].
Qed.

Lemma GreedySplit_alternate (nm text : string) (segs : list Segment) :
  GreedySplit nm text segs -> alternate segs = true.
Proof. induction 1; [reflexivity | assumption]. Qed.

(** For a text and a name over the code units 0..255, the name not blank
    and without syntax character, highlighting misses nothing: no plain
    segment contains the name, in whatever case. *)
Theorem highlightName_misses_nothing (text nm : string) :
  blank nm = false -> plainCharacters nm = true ->
  exists node,
    highlightName text nm = Some node
    /\ forall s, In (plain s) (segments node) ->
                 forall i, ~ occursAt nm s i.
Proof.
  intros B P. destruct (highlightName_plain text nm B P) as (node & E & G).
  exists node. split; [assumption|].
  exact (GreedySplit_plain nm text _ (not_blank_not_empty nm B) G).
Qed.

Lemma highlightName_misses_nothing_witness :
  exists node,
    highlightName "Lily met a dragon. lily smiled." "Lily" = Some node
    /\ forall s, In (plain s) (segments node) ->
                 forall i, ~ occursAt "Lily" s i.
Proof.
  exact (highlightName_misses_nothing
           "Lily met a dragon. lily smiled." "Lily" eq_refl eq_refl).
Defined.

(** For such a text and name (code units 0..255) the segments are plain
    and emphasized in turn, from a plain one to a plain one (so there is
    one plain segment more than there are emphasized ones), and each
    emphasized segment is the name up to case, with the length of the
    name. *)
Theorem highlightName_segments_alternate (text nm : string) :
  blank nm = false -> plainCharacters nm = true ->
  exists node,
    highlightName text nm = Some node
    /\ alternate (segments node) = true
    /\ forall s, In (emphasized s) (segments node) ->
                 sameIgnoringCase s nm /\ length s = length nm.
Proof.
  intros B P. destruct (highlightName_plain text nm B P) as (node & E & G).
  exists node. split; [assumption|]. split.
  - exact (GreedySplit_alternate nm text _ G).
  - intros s Hin. pose proof (GreedySplit_emphasized nm text _ G s Hin).
    split; [assumption | now apply sameIgnoringCase_length].
Qed.

Lemma highlightName_segments_alternate_witness :
  exists node,
    highlightName "aaa" "aa" = Some node
    /\ alternate (segments node) = true
    /\ forall s, In (emphasized s) (segments node) ->
                 sameIgnoringCase s "aa" /\ length s = length "aa".
Proof.
  exact (highlightName_segments_alternate "aaa" "aa" eq_refl eq_refl).
Defined.

Lemma occursAt_same_name (nm nm' text : string) (i : nat) :
  sameIgnoringCase nm nm' -> occursAt nm text i -> occursAt nm' text i.
Proof.
  intros H [H1 H2]. pose proof (sameIgnoringCase_length _ _ H) as L.
  unfold occursAt, sameIgnoringCase in *. rewrite <- L, <- H. now split.
Qed.

Lemma GreedySplit_same_name (nm nm' text : string) (segs : list Segment) :
  sameIgnoringCase nm nm' ->
  GreedySplit nm text segs -> GreedySplit nm' text segs.
Proof.
  intros H G.
  assert (H' : sameIgnoringCase nm' nm) by (symmetry; exact H).
  induction G as [text Hno | before hit rest segs Hhit Hleft _ IH].
  - apply split_none. intros i Ho.
    exact (Hno i (occursAt_same_name nm' nm text i H' Ho)).
  - apply split_at; [| | exact IH].
    + unfold sameIgnoringCase in *. congruence.
    + intros i Hi Ho.
      exact (Hleft i Hi (occursAt_same_name nm' nm _ i H' Ho)).
Qed.

(** Two names over the code units 0..255 that differ in case only,
    neither blank nor with a syntax character, give the same segments on
    every text over these code units. *)
Theorem highlightName_ignores_case_of_name (text nm nm' : string) :
  blank nm = false -> plainCharacters nm = true ->
  blank nm' = false -> plainCharacters nm' = true ->
  sameIgnoringCase nm nm' ->
  option_map segments (highlightName text nm)
  = option_map segments (highlightName text nm')
  /\ highlightName text nm <> None.
Proof.
  intros B P B' P' H.
  destruct (highlightName_plain text nm B P) as (node & E & G).
  destruct (highlightName_plain text nm' B' P') as (node' & E' & G').
  rewrite E, E'. split; [|discriminate]. cbn [option_map]. f_equal.
  apply (GreedySplit_functional nm' text); [|assumption].
  now apply (GreedySplit_same_name nm nm').
Qed.

Lemma highlightName_ignores_case_of_name_witness :
  option_map segments (highlightName "Lily met a dragon. lily smiled." "Lily")
  = option_map segments
      (highlightName "Lily met a dragon. lily smiled." "LILY").
Proof.
  exact (proj1 (highlightName_ignores_case_of_name
                  "Lily met a dragon. lily smiled." "Lily" "LILY"
                  eq_refl eq_refl eq_refl eq_refl eq_refl)).
Defined.

(** For such a text and name (code units 0..255), the text comes back as
    one plain segment exactly when the name occurs nowhere in it; when it
    occurs, some segment is emphasized. *)
Theorem highlightName_emphasizes_iff_occurs (text nm : string) :
  blank nm = false -> plainCharacters nm = true ->
  exists node,
    highlightName text nm = Some node
    /\ ((forall i, ~ occursAt nm text i) <-> segments node = [plain text])
    /\ ((exists i, occursAt nm text i)
        <-> exists hit, In (emphasized hit) (segments node)).
Proof.
  intros B P. destruct (highlightName_plain text nm B P) as (node & E & G).
  exists node. split; [assumption|].
  assert (Hsame : forall hit, sameIgnoringCase hit nm -> hit <> "").
  { intros hit Hh ->. apply sameIgnoringCase_length in Hh.
    pose proof (length_pos nm (not_blank_not_empty nm B)). simpl in Hh. lia. }
  assert (D : ((forall i, ~ occursAt nm text i)
               /\ segments node = [plain text])
              \/ ((exists i, occursAt nm text i)
                  /\ (exists hit, In (emphasized hit) (segments node))
                  /\ segments node <> [plain text])).
  { inversion G as [t Hno Ht Hs | before hit rest segs Hhit Hleft Hrest Ht Hs].
    - left. now split.
    - right. split; [|split].
      + exists (length before). now apply occursAt_hit.
      + exists hit. right. now left.
      + discriminate. }
  split; split.
  - intros Hno. destruct D as [[_ D] | [[i Ho] _]]; [exact D|].
    now destruct (Hno i).
  - intros Hs. destruct D as [[D _] | [_ [_ D]]]; [exact D | contradiction].
  - intros [i Ho]. destruct D as [[D _] | [_ [D _]]]; [|exact D].
    now destruct (D i).
  - intros [hit Hin]. destruct D as [[_ D] | [D _]]; [|exact D].
    rewrite D in Hin. destruct Hin as [[=] | []].
Qed.

Lemma highlightName_emphasizes_iff_occurs_witness :
  option_map segments (highlightName "A knight met a dragon." "Lily")
  = Some [plain "A knight met a dragon."].
Proof.
  destruct (highlightName_emphasizes_iff_occurs
              "A knight met a dragon." "Lily" eq_refl eq_refl)
    as (node & E & _ & _).
  rewrite E. vm_compute in E. injection E as <-. reflexivity.
Defined.

(** ** The generation handler, whatever becomes of its attempt *)

Lemma stream_shape_thrown (responseStream : list IteratorResult) :
  exists tail,
    responseStream = (List.map Yield (received responseStream) ++ tail)%list
    /\ forall f v,
         forAwait tail f v
         = ([], (v, match thrown responseStream with
                    | Some err => Abrupt err
                    | None => Normal
                    end)).
Proof.
  induction responseStream as [|[chunk|err] rest IH].
  - exists []. split; [reflexivity | apply forAwait_end].
  - destruct IH as (tail & E & H). exists tail. split; [|exact H].
    cbn [received List.map app]. now rewrite <- E.
  - exists (Throw err :: rest). split; [reflexivity | apply forAwait_throw].
Qed.

(** What a validated run goes through, in terms of the attempt. *)
Lemma handleGenerateStory_answer (w : World) (attempt : Attempt) :
  name w <> "" -> interests w <> "" ->
  handleGenerateStory attempt w
  = ((entered attempt w
      :: List.map (fun s => setStory s (entered attempt w))
                  (running "" (delivered attempt)))
     ++ [catchFinally
           (setStory (JS.join (List.map text (delivered attempt)))
                     (entered attempt w),
            ending attempt)])%list.
Proof.
  intros Hn Hi. destruct attempt as [err|[err|items]].
  - now rewrite handleGenerateStory_throws.
  - now rewrite handleGenerateStory_valid.
  - destruct (stream_shape_thrown items) as (tail & E & H).
    rewrite E at 1. now apply handleGenerateStory_stream.
Qed.

Lemma entered_stories (w : World) (attempt : Attempt) (chunks : list Chunk)
  (c : Completion) :
  List.map story
    ((entered attempt w
      :: List.map (fun s => setStory s (entered attempt w))
                  (running "" chunks))
     ++ [catchFinally
           (setStory (JS.join (List.map text chunks)) (entered attempt w),
            c)])
  = (("" :: running "" chunks) ++ [JS.join (List.map text chunks)])%list.
Proof.
  rewrite map_app. cbn [List.map]. rewrite map_map.
  f_equal.
  - f_equal; [now destruct attempt | now rewrite map_id].
  - now destruct c.
Qed.

Lemma renderWith_cases (highlight : string -> string -> option ReactNode)
  (w : World) :
  renderWith highlight w
  = if JS.truthy (story w) then
      match highlight (story w) (name w) with
      | Some content => Some (viewOf w [StoryBlock (controlOf w) content])
      | None => None
      end
    else Some (viewOf w []).
Proof.
  unfold renderWith, viewOf, controlOf.
  destruct (JS.truthy (story w)); [|reflexivity].
  now destruct (highlight (story w) (name w)).
Qed.

Lemma renderWith_submit (highlight : string -> string -> option ReactNode)
  (w : World) (view : View) :
  renderWith highlight w = Some view ->
  view_submit view
  = {| submit_disabled := isLoading w;
       submit_ariaBusy := isLoading w;
       submit_label := if isLoading w then "Creating Magic..."
                       else "Write my Story!" |}.
Proof.
  rewrite renderWith_cases. destruct (JS.truthy (story w)).
  - destruct (highlight (story w) (name w)); [|discriminate].
    now intros [= <-].
  - now intros [= <-].
Qed.

Lemma controlButton_viewOf (w : World) (storyBlock : list StoryChild) :
  controlButton (view_story (viewOf w storyBlock))
  = match controlButton storyBlock with
    | Some control => Some control
    | None => None
    end.
Proof.
  unfold viewOf. cbn [view_story].
  assert (E : controlButton
                match error w with
                | Some message => renderIf (JS.truthy message)
                                           (ErrorMessage message)
                | None => []
                end = None).
  { destruct (error w) as [message|]; [|reflexivity].
    now destruct (JS.truthy message). }
  destruct (negb (JS.truthy (story w)) && negb (isLoading w)),
    (isLoading w && negb (JS.truthy (story w)));
    cbn [renderIf app controlButton];
    (destruct storyBlock as [|[message|control content|message] rest];
     cbn [app controlButton]; try reflexivity; try (now rewrite E));
    (induction rest as [|[m|k cnt|m] rest IH]; cbn [app controlButton];
     [now rewrite E | exact IH | reflexivity | exact IH]).
Qed.

Lemma clickControlWith_cases
  (highlight : string -> string -> option ReactNode) (w : World) :
  clickControlWith highlight w
  = if JS.truthy (story w) then
      match highlight (story w) (name w) with
      | Some _ => if isLoading w then w
                  else if isReading w then handleStopReading w
                       else handleReadAloud w w
      | None => w
      end
    else w.
Proof.
  unfold clickControlWith. rewrite renderWith_cases.
  destruct (JS.truthy (story w)).
  - destruct (highlight (story w) (name w)) as [content|]; [|reflexivity].
    rewrite controlButton_viewOf. cbn [controlButton controlOf
      control_disabled control_onClick].
    destruct (isLoading w); [reflexivity|]. now destruct (isReading w).
  - rewrite controlButton_viewOf. reflexivity.
Qed.

(** The loading flag brackets a request: in every world a validated run
    in which the service is called goes through but the last, the flag is
    set, so that the submit button, where the page renders, is disabled,
    busy and reads "Creating Magic...", and a click on the read-aloud
    button does nothing; the first of these worlds, with its empty story,
    does render. In the last world, whatever the service answered, the
    flag is cleared and the submit button, where the page renders, is
    back. This holds whatever [highlightName] does on the names it is
    given. *)
Theorem loading_brackets_the_request
  (highlight : string -> string -> option ReactNode) (w : World)
  (answer : Response) :
  name w <> "" -> interests w <> "" ->
  exists first during last,
    handleGenerateStory answer w = (first :: during ++ [last])%list
    /\ renderWith highlight first <> None
    /\ (forall w', In w' (first :: during) ->
          isLoading w' = true
          /\ (forall view,
                renderWith highlight w' = Some view ->
                view_submit view
                = {| submit_disabled := true; submit_ariaBusy := true;
                     submit_label := "Creating Magic..." |})
          /\ clickControlWith highlight w' = w')
    /\ isLoading last = false
    /\ (forall view,
          renderWith highlight last = Some view ->
          view_submit view
          = {| submit_disabled := false; submit_ariaBusy := false;
               submit_label := "Write my Story!" |}).
Proof.
  intros Hn Hi. rewrite (handleGenerateStory_answer w answer Hn Hi).
  cbn [entered constructs]. rewrite <- app_comm_cons.
  eexists. eexists. eexists. split; [reflexivity|].
  split; [now rewrite renderWith_cases|].
  assert (L : forall w',
             In w' (started w
                    :: List.map (fun s => setStory s (started w))
                                (running "" (delivered answer))) ->
             isLoading w' = true).
  { intros w' [<- | H]; [reflexivity|].
    apply in_map_iff in H. now destruct H as (s & <- & _). }
  split; [|split].
  - intros w' H. pose proof (L w' H) as Hl. split; [assumption|]. split.
    + intros view Hv. rewrite (renderWith_submit highlight w' view Hv).
      now rewrite Hl.
    + rewrite clickControlWith_cases, Hl.
      destruct (JS.truthy (story w')); [|reflexivity].
      now destruct (highlight (story w') (name w')).
  - now destruct (ending answer).
  - intros view Hv. rewrite (renderWith_submit highlight _ view Hv).
    now destruct (ending answer).
Qed.

Lemma loading_brackets_the_request_witness :
  List.map isLoading
    (handleGenerateStory
       (Stream [Yield {| text := "Once " |}; Throw "connection lost"]) lily)
  = [true; true; false].
Proof.
  destruct (loading_brackets_the_request
              highlightName
              lily (Stream [Yield {| text := "Once " |};
                            Throw "connection lost"])
              ltac:(discriminate) ltac:(discriminate))
    as (first & during & last & E & _).
  reflexivity.
Defined.

(** What a validated run tells about a failure: the message shown at the
    end is the fixed one when the attempt failed, in the constructor of
    the client, at the call or in the stream, and none when it did not;
    until then no message is shown; the exception itself goes to the
    console, once, and nowhere else. *)
Theorem failure_is_shown_as_fixed_message (w : World) (attempt : Attempt) :
  name w <> "" -> interests w <> "" ->
  let published := handleGenerateStory attempt w in
  let w' := final w published in
  error w' = match failure attempt with
             | Some _ => Some generationMessage
             | None => None
             end
  /\ console w' = (console w ++ match failure attempt with
                                | Some err => [err]
                                | None => []
                                end)%list
  /\ (forall wi, In wi published -> wi <> w' ->
        error wi = None /\ console wi = console w).
Proof.
  intros Hn Hi published w'. unfold w', final, published.
  rewrite (handleGenerateStory_answer w attempt Hn Hi).
  rewrite last_last. unfold ending.
  split; [|split].
  - now destruct (failure attempt), attempt.
  - destruct (failure attempt), attempt; cbn;
      try reflexivity; now rewrite app_nil_r.
  - intros wi H Hne. apply in_app_or in H.
    destruct H as [[<- | H] | [<- | []]].
    + now destruct attempt.
    + apply in_map_iff in H. destruct H as (s & <- & _).
      now destruct attempt.
    + contradiction.
Qed.

Lemma failure_is_shown_as_fixed_message_witness :
  error (final lily (handleGenerateStory (Rejected "quota exceeded") lily))
  = Some generationMessage
  /\ console (final lily (handleGenerateStory (Rejected "quota exceeded")
                                               lily))
     = ["quota exceeded"].
Proof.
  destruct (failure_is_shown_as_fixed_message
              lily (Rejected "quota exceeded")
              ltac:(discriminate) ltac:(discriminate))
    as (He & Hc & _).
  exact (conj He Hc).
Defined.

Lemma stories_nth_all (chunks : list Chunk) (i : nat) :
  i <= List.length chunks + 1 ->
  nth_error (("" :: running "" chunks) ++ [JS.join (List.map text chunks)])%list
            i
  = Some (JS.join (List.map text (firstn i chunks))).
Proof.
  intros Hi. destruct (Nat.eq_dec i (List.length chunks + 1)) as [->|Hne].
  - rewrite nth_error_app2
      by (cbn [List.length]; rewrite running_length; lia).
    cbn [List.length]. rewrite running_length.
    replace (List.length chunks + 1 - S (List.length chunks)) with 0 by lia.
    now rewrite firstn_all2 by lia.
  - apply stories_nth. lia.
Qed.

Lemma firstn_S_prefix {A : Type} (l : list A) (i : nat) :
  exists rest, firstn (S i) l = (firstn i l ++ rest)%list.
Proof.
  revert i; induction l as [|x l IH]; intros i.
  - exists []. now destruct i.
  - destruct i as [|i]; [now exists [x]|].
    destruct (IH i) as [rest E]. exists rest.
    change (firstn (S (S i)) (x :: l)) with (x :: firstn (S i) l).
    now rewrite E.
Qed.

(** In a validated run the story only grows, whatever becomes of the
    attempt: the story of each world the run goes through is a prefix of
    the story of the next one, up to the last world, also when the stream
    fails. *)
Theorem story_only_grows (w : World) (attempt : Attempt) (i : nat)
  (wi wj : World) :
  name w <> "" -> interests w <> "" ->
  nth_error (handleGenerateStory attempt w) i = Some wi ->
  nth_error (handleGenerateStory attempt w) (S i) = Some wj ->
  JS.startsWith (story wj) (story wi).
Proof.
  intros Hn Hi Hwi Hwj.
  pose proof (f_equal (List.map story)
                (handleGenerateStory_answer w attempt Hn Hi)) as HS.
  rewrite entered_stories in HS.
  assert (Hlen : S i < List.length (handleGenerateStory attempt w))
    by (apply nth_error_Some; congruence).
  rewrite <- (length_map story), HS, length_app in Hlen.
  cbn [List.length] in Hlen. rewrite running_length in Hlen.
  assert (Si : nth_error (List.map story (handleGenerateStory attempt w)) i
               = Some (story wi)) by (now rewrite nth_error_map, Hwi).
  assert (Sj : nth_error (List.map story (handleGenerateStory attempt w))
                         (S i)
               = Some (story wj)) by (now rewrite nth_error_map, Hwj).
  rewrite HS, stories_nth_all in Si, Sj by lia.
  assert (Ei : story wi
               = JS.join (List.map text (firstn i (delivered attempt))))
    by congruence.
  assert (Ej : story wj
               = JS.join (List.map text (firstn (S i) (delivered attempt))))
    by congruence.
  destruct (firstn_S_prefix (delivered attempt) i) as [rest E].
  rewrite Ei, Ej, E, map_app, join_app. eexists. reflexivity.
Qed.

Lemma story_only_grows_witness :
  JS.startsWith "Once upon " "Once ".
Proof.
  exact (story_only_grows
           lily (Stream [Yield {| text := "Once " |};
                         Yield {| text := "upon " |};
                         Throw "connection lost"])
           1 _ _ ltac:(discriminate) ltac:(discriminate) eq_refl eq_refl).
Defined.

(** A new request replaces the story wholesale: the stories a validated
    run goes through are those of the attempt alone, an empty one first,
    and nothing of the story, the error or the flags of the world it
    starts in is left in them. *)
Theorem stories_depend_on_the_answer_only (w1 w2 : World)
  (attempt : Attempt) :
  name w1 <> "" -> interests w1 <> "" ->
  name w2 <> "" -> interests w2 <> "" ->
  List.map story (handleGenerateStory attempt w1)
  = List.map story (handleGenerateStory attempt w2)
  /\ hd_error (List.map story (handleGenerateStory attempt w1)) = Some "".
Proof.
  intros Hn1 Hi1 Hn2 Hi2.
  rewrite (handleGenerateStory_answer w1 attempt Hn1 Hi1).
  rewrite (handleGenerateStory_answer w2 attempt Hn2 Hi2).
  rewrite !entered_stories. now split.
Qed.

Lemma stories_depend_on_the_answer_only_witness :
  List.map story
    (handleGenerateStory (Stream (List.map Yield onceUponATime)) lily)
  = List.map story
      (handleGenerateStory (Stream (List.map Yield onceUponATime))
                           lilyReading).
Proof.
  exact (proj1 (stories_depend_on_the_answer_only
                  lily lilyReading (Stream (List.map Yield onceUponATime))
                  ltac:(discriminate) ltac:(discriminate)
                  ltac:(discriminate) ltac:(discriminate))).
Defined.

(** Validation looks at emptiness only: a name made of white space passes
    it; when the client is constructed the service is then called, with
    that name in the prompt; and the highlighter treats the same name as
    no name at all. *)
Theorem blank_name_passes_validation (w : World) (answer : Response) :
  blank (name w) = true -> name w <> "" -> interests w <> "" ->
  requests (final w (handleGenerateStory answer w))
  = (requests w
     ++ [{| model := "gemini-2.5-flash";
            contents := prompt (name w) (age w) (interests w);
            config_systemInstruction := systemInstruction |}])%list
  /\ forall text, highlightName text (name w) = Some (TextNode text).
Proof.
  intros B Hn Hi. split.
  - unfold final. rewrite (handleGenerateStory_answer w answer Hn Hi).
    rewrite last_last. now destruct (ending answer).
  - intros text. unfold highlightName. now rewrite truthy_trim, B.
Qed.

Lemma blank_name_passes_validation_witness :
  List.length
    (requests (final (setName " " lily)
                     (handleGenerateStory (Stream []) (setName " " lily))))
  = 1.
Proof.
  destruct (blank_name_passes_validation
              (setName " " lily) (Stream [])
              eq_refl ltac:(discriminate) ltac:(discriminate)) as [E _].
  exact (f_equal (@List.length _) E).
Defined.

(** ** What is rendered *)

(** Whenever the page renders, the story container shows exactly one of
    its three views, beside the error message: the story with its controls
    when there is a story, else the busy placeholder while loading, else
    the idle placeholder. The page fails to render exactly when there is a
    story and [highlightName] throws on it and the name. This holds
    whatever [highlightName] does on the names it is given. *)
Theorem story_area_shows_one_view
  (highlight : string -> string -> option ReactNode) (w : World) :
  (renderWith highlight w = None
   <-> story w <> "" /\ highlight (story w) (name w) = None)
  /\ forall view,
       renderWith highlight w = Some view ->
       exists child,
         filter (fun child => negb (isErrorMessage child)) (view_story view)
         = [child]
         /\ (story w <> "" ->
             exists content,
               highlight (story w) (name w) = Some content
               /\ child
                  = StoryBlock
                      {| control_onClick :=
                           if isReading w then StopReadingHandler
                           else ReadAloudHandler;
                         control_disabled := isLoading w;
                         control_label := if isReading w then "Stop Reading"
                                          else "Read Aloud" |}
                      content)
         /\ (story w = "" ->
             child
             = if isLoading w then
                 Placeholder
                   "Our storytellers are busy writing a special tale..."
               else Placeholder "Your magical story will appear here...").
Proof.
  rewrite renderWith_cases.
  assert (F : forall l,
             filter (fun child => negb (isErrorMessage child))
                    (l ++ match error w with
                          | Some message => renderIf (JS.truthy message)
                                                     (ErrorMessage message)
                          | None => []
                          end)
             = filter (fun child => negb (isErrorMessage child)) l).
  { intros l. rewrite filter_app.
    destruct (error w) as [message|]; [|now rewrite app_nil_r].
    destruct (JS.truthy message); cbn; now rewrite app_nil_r. }
  destruct (story w) as [|c rest] eqn:Hs; cbn [JS.truthy].
  - split.
    + split; [discriminate | now intros [H _]].
    + intros view [= <-]. unfold viewOf. cbn [view_story]. rewrite Hs.
      cbn [JS.truthy negb andb app].
      exists (if isLoading w then
                Placeholder
                  "Our storytellers are busy writing a special tale..."
              else Placeholder "Your magical story will appear here...").
      split; [|split; [congruence | reflexivity]].
      destruct (isLoading w); cbn [negb andb renderIf app];
        rewrite ?andb_true_r;
        change (?x :: ?l) with ([x] ++ l)%list; now rewrite F.
  - split.
    + destruct (highlight (String c rest) (name w)); split;
        try discriminate; try reflexivity.
      * now intros [_ H].
      * intros _. split; [discriminate | reflexivity].
    + destruct (highlight (String c rest) (name w)) as [content|] eqn:Hh;
        [|discriminate].
      intros view [= <-]. unfold viewOf. cbn [view_story]. rewrite Hs.
      cbn [JS.truthy negb andb renderIf app]. rewrite andb_false_r.
      cbn [renderIf app].
      exists (StoryBlock (controlOf w) content).
      split; [|split; [|discriminate]].
      * change (?x :: ?l) with ([x] ++ l)%list. now rewrite F.
      * intros _. now exists content.
Qed.

Lemma story_area_shows_one_view_witness :
  renderWith highlightName (setName "(" lilyWithStory) = None
  /\ renderWith highlightName lilyWithStory <> None.
Proof.
  split.
  - apply (proj2 (proj1 (story_area_shows_one_view
                           highlightName (setName "(" lilyWithStory)))).
    split; [discriminate | reflexivity].
  - intros H.
    apply (proj1 (proj1 (story_area_shows_one_view
                           highlightName lilyWithStory))) in H.
    destruct H as [_ H]. discriminate H.
Defined.

(** The button of the story controls is a toggle, and it is dead while a
    request is loading, when there is no story, and when the page did not
    render. On a story that is not being read, in a page that rendered and
    is not loading, a click starts reading; if moreover no utterance is
    held, the queue of the engine is empty and the engine does not speak,
    then once the engine speaks a second click stops it, and the component
    and the engine are back where they were before the first click. This
    holds whatever [highlightName] does on the names it is given. *)
Theorem read_aloud_button_toggles
  (highlight : string -> string -> option ReactNode) (w : World) :
  (isLoading w = true \/ story w = ""
   \/ highlight (story w) (name w) = None ->
   clickControlWith highlight w = w)
  /\ (isLoading w = false -> story w <> "" ->
      highlight (story w) (name w) <> None -> isReading w = false ->
      clickControlWith highlight w = handleReadAloud w w
      /\ isReading (clickControlWith highlight w) = true
      /\ (utteranceRef w = None -> queue w = [] -> speaking w = false ->
          clickControlWith highlight
            (speechSynthesis_starts (clickControlWith highlight w))
          = w)).
Proof.
  split.
  - rewrite clickControlWith_cases. intros [H | [H | H]]; rewrite H.
    + destruct (JS.truthy (story w)); [|reflexivity].
      now destruct (highlight (story w) (name w)).
    + reflexivity.
    + now destruct (JS.truthy (story w)).
  - intros Hl Hs Hh Hr.
    assert (E : clickControlWith highlight w = handleReadAloud w w).
    { rewrite clickControlWith_cases, (truthy_true _ Hs), Hl, Hr.
      now destruct (highlight (story w) (name w)). }
    pose proof (handleReadAloud_speaks w w Hr Hs) as E'.
    split; [exact E|]. split; [now rewrite E, E'|].
    intros Hu Hq Hsp. rewrite E, E'. rewrite clickControlWith_cases.
    destruct w as [[n a i st ld rd er ur] [rq cs sp qu]].
    unfold isLoading, story, isReading, utteranceRef, queue, speaking, name
      in *.
    cbn in Hl, Hs, Hr, Hu, Hq, Hsp, Hh. subst.
    destruct st as [|c st]; [congruence|]. cbn.
    now destruct (highlight (String c st) n).
Qed.

Lemma read_aloud_button_toggles_witness :
  isReading (clickControl lilyWithStory) = true
  /\ clickControl (speechSynthesis_starts (clickControl lilyWithStory))
     = lilyWithStory.
Proof.
  destruct (proj2 (read_aloud_button_toggles highlightName lilyWithStory)
                  eq_refl ltac:(discriminate) ltac:(discriminate) eq_refl)
    as (_ & Hr & Hback).
  exact (conj Hr (Hback eq_refl eq_refl eq_refl)).
Defined.

(** ** The handler as a suspended run *)

Lemma resumeAll_None (fuel : nat) (w : World) : resumeAll fuel None w = [].
Proof. now destruct fuel. Qed.

Lemma resumeAll_loop (responseStream : list IteratorResult)
  (fullStory : string) (w : World) (fuel : nat) :
  List.length responseStream < fuel ->
  resumeAll fuel (Some (InLoop fullStory responseStream)) w
  = (fst (forAwait responseStream fullStory w)
     ++ [catchFinally (snd (forAwait responseStream fullStory w))])%list.
Proof.
  revert fullStory w fuel.
  induction responseStream as [|[chunk|err] rest IH];
    intros fullStory w [|fuel] H; cbn [List.length] in H; try lia.
  - cbn [resumeAll resume forAwait fst snd app]. now rewrite resumeAll_None.
  - cbn [resumeAll resume forAwait]. rewrite IH by lia.
    now destruct (forAwait rest (fullStory ++ text chunk)
                           (setStory (fullStory ++ text chunk) w)).
  - cbn [resumeAll resume forAwait fst snd app]. now rewrite resumeAll_None.
Qed.

(** The handler is its synchronous start followed by its resumptions: what
    it publishes is the world [submit] leaves, then the world after each
    resumption of the suspended run, with nothing else in between. For a
    stream the first resumption only enters the loop and is not published
    apart. With a name or the interests missing there is no run to
    resume. *)
Theorem handler_is_submit_then_resumptions (answer : Response) (w : World)
  (fuel : nat) :
  List.length (match answer with
               | Stream responseStream => responseStream
               | Rejected _ => []
               end) + 2 <= fuel ->
  handleGenerateStory answer w
  = let '(run, w0) := submit answer w in
    w0 :: match answer with
          | Stream _ => tl (resumeAll fuel run w0)
          | Rejected _ => resumeAll fuel run w0
          end.
Proof.
  intros Hfuel. unfold handleGenerateStory, submit.
  destruct (negb (JS.truthy (name w)) || negb (JS.truthy (interests w))).
  - rewrite resumeAll_None. now destruct answer.
  - destruct fuel as [|fuel]; [lia|]. destruct answer as [err|items].
    + cbn [resumeAll resume]. now rewrite resumeAll_None.
    + cbn [resumeAll resume tl]. rewrite resumeAll_loop by lia.
      now destruct (forAwait items "" _).
Qed.

Lemma handler_is_submit_then_resumptions_witness :
  handleGenerateStory (Stream (List.map Yield onceUponATime)) lily
  = let '(run, w0) := submit (Stream (List.map Yield onceUponATime)) lily in
    w0 :: tl (resumeAll 5 run w0).
Proof.
  exact (handler_is_submit_then_resumptions
           (Stream (List.map Yield onceUponATime)) lily 5
           ltac:(cbn; lia)).
Defined.

(** ** The age selector *)

Lemma ageOptions_checked :
  Forall (fun chosen =>
            JS.Number (JS.numberToString (option_value chosen))
            = Some (option_value chosen)
            /\ (3 <= option_value chosen <= 10)%Z
            /\ option_key chosen = option_value chosen
            /\ option_label chosen
               = JS.numberToString (option_value chosen) ++ " years old")
         ageOptions.
Proof.
  unfold ageOptions, JS.map, JS.Array. cbn [repeat JS.mapFrom].
  repeat (constructor;
          [cbn [option_value option_key option_label];
           repeat split; try reflexivity; cbn; lia|]).
  constructor.
Qed.

(** The selector offers the eight ages 3 to 10, in order and each once;
    choosing the option at an index sets the age to its value, which comes
    back unchanged from the string the option carries, and an index
    without option changes nothing. *)
Theorem selectAge_sets_an_age_from_3_to_10 (index : nat) (w : World) :
  List.map option_value ageOptions = [3; 4; 5; 6; 7; 8; 9; 10]%Z
  /\ (index < 8 ->
      age (selectAge index w) = (Z.of_nat index + 3)%Z
      /\ (3 <= age (selectAge index w) <= 10)%Z
      /\ story (selectAge index w) = story w
      /\ browser (selectAge index w) = browser w)
  /\ (8 <= index -> selectAge index w = w).
Proof.
  split; [reflexivity|]. split.
  - intros H. do 8 (destruct index as [|index]; [now repeat split|]). lia.
  - intros H. unfold selectAge.
    now rewrite (proj2 (nth_error_None ageOptions index)).
Qed.

Lemma selectAge_sets_an_age_from_3_to_10_witness :
  age (selectAge 4 initialWorld) = 7%Z.
Proof.
  exact (proj1 (proj1 (proj2 (selectAge_sets_an_age_from_3_to_10
                                4 initialWorld))
                      ltac:(lia))).
Defined.

Lemma selectAge_age (index : nat) (w : World) :
  age (selectAge index w) = age w
  \/ (3 <= age (selectAge index w) <= 10)%Z.
Proof.
  unfold selectAge.
  destruct (nth_error ageOptions index) as [chosen|] eqn:E; [|now left].
  apply nth_error_In in E.
  pose proof (proj1 (Forall_forall _ _) ageOptions_checked chosen E)
    as (-> & H & _).
  now right.
Qed.

Lemma selectAge_keeps (index : nat) (w : World) :
  error (selectAge index w) = error w
  /\ isLoading (selectAge index w) = isLoading w
  /\ requests (selectAge index w) = requests w.
Proof.
  unfold selectAge.
  destruct (nth_error ageOptions index) as [chosen|]; [|now repeat split].
  now destruct (JS.Number (JS.numberToString (option_value chosen))).
Qed.

(** ** The component in the event loop *)

Lemma play_app (a b : list Event) (m : Machine) :
  play (a ++ b) m = play b (play a m).
Proof. apply fold_left_app. Qed.

Lemma setNth_length {A : Type} (k : nat) (x : A) (l : list A) :
  List.length (setNth k x l) = List.length l.
Proof.
  revert k; induction l as [|y l IH]; intros [|k]; simpl; auto.
Qed.

Lemma nth_error_setNth_same {A : Type} (k : nat) (x : A) (l : list A) :
  k < List.length l -> nth_error (setNth k x l) k = Some x.
Proof.
  revert k; induction l as [|y l IH]; intros [|k] H; simpl in *;
    try lia; [reflexivity | apply IH; lia].
Qed.

Lemma nth_error_setNth_other {A : Type} (k k' : nat) (x : A) (l : list A) :
  k <> k' -> nth_error (setNth k' x l) k = nth_error l k.
Proof.
  revert k k'; induction l as [|y l IH]; intros [|k] [|k'] H; simpl;
    try reflexivity; try congruence.
  apply IH. congruence.
Qed.

(** The six handlers and callbacks that are not the generation handler
    leave the request cells alone, apart from the error message of the
    speech callback. *)
Lemma handleReadAloud_keeps (rendered w : World) :
  age (handleReadAloud rendered w) = age w
  /\ error (handleReadAloud rendered w) = error w
  /\ isLoading (handleReadAloud rendered w) = isLoading w
  /\ requests (handleReadAloud rendered w) = requests w
  /\ story (handleReadAloud rendered w) = story w.
Proof.
  unfold handleReadAloud.
  now destruct (isReading rendered || negb (JS.truthy (story rendered))).
Qed.

Lemma handleStopReading_keeps (w : World) :
  age (handleStopReading w) = age w
  /\ error (handleStopReading w) = error w
  /\ isLoading (handleStopReading w) = isLoading w
  /\ requests (handleStopReading w) = requests w
  /\ story (handleStopReading w) = story w.
Proof. unfold handleStopReading. now destruct (speaking w). Qed.

Lemma speechSynthesis_starts_keeps (w : World) :
  react (speechSynthesis_starts w) = react w
  /\ requests (speechSynthesis_starts w) = requests w.
Proof.
  unfold speechSynthesis_starts. now destruct (br_queue (browser w)).
Qed.

Lemma submit_cases (attempt : Attempt) (w : World) :
  submit attempt w
  = if negb (JS.truthy (name w)) || negb (JS.truthy (interests w)) then
      (None, setError (Some validationMessage) w)
    else match attempt with
         | ConstructorThrows err =>
             (None, catchFinally (cleared w, Abrupt err))
         | Calls answer => (Some (AtCall answer), started w)
         end.
Proof.
  unfold submit.
  destruct (negb (JS.truthy (name w)) || negb (JS.truthy (interests w)));
    [reflexivity | now destruct attempt].
Qed.

(** What a turn of the event loop does to the cells of a request. *)
Lemma step_request_cells (m : Machine) (e : Event) :
  let w := world m in
  let w' := world (step m e) in
  (age w' = age w \/ (3 <= age w' <= 10)%Z)
  /\ (error w' = error w \/ error w' = None
      \/ error w' = Some validationMessage
      \/ error w' = Some generationMessage
      \/ error w' = Some speechMessage).
Proof.
  destruct m as [w rs]. destruct e as [v|index|v|answer|k| | | | | ];
    unfold step, onWorld; cbn [world runs].
  - now split; left.
  - split; [apply selectAge_age | left; apply selectAge_keeps].
  - now split; left.
  - rewrite submit_cases.
    destruct (negb (JS.truthy (name w)) || negb (JS.truthy (interests w)));
      [|destruct answer]; cbn [world]; split; auto.
  - destruct (nth_error rs k) as [[suspended|]|]; cbn [world]; auto.
    destruct suspended as [[err|items]|full [|[chunk|err] rest]];
      cbn [resume world]; split; auto.
  - pose proof (handleReadAloud_keeps w w) as (-> & -> & _). now split; left.
  - pose proof (handleStopReading_keeps w) as (-> & -> & _). now split; left.
  - unfold age, error.
    rewrite (proj1 (speechSynthesis_starts_keeps w)). now split; left.
  - now split; left.
  - split; [now left | auto].
Qed.

(** Whatever happens, in whatever order, the age the component holds is
    between 3 and 10: it starts at 5 and is only ever set from the
    selector. So the age in every prompt is one of those. *)
Theorem age_stays_between_3_and_10 (events : list Event) :
  (3 <= age (world (play events initialMachine)) <= 10)%Z.
Proof.
  assert (G : forall m,
             (3 <= age (world m) <= 10)%Z ->
             (3 <= age (world (play events m)) <= 10)%Z).
  { induction events as [|e events IH]; intros m H; [exact H|].
    apply IH. destruct (proj1 (step_request_cells m e)) as [E | E];
      [now rewrite E | exact E]. }
  apply G. cbn. lia.
Qed.

(** Whatever happens, the component shows no message or one of its three
    fixed messages: what the service or the speech engine threw is never
    put on the page. *)
Theorem only_fixed_messages_are_shown (events : list Event) :
  shownMessage (error (world (play events initialMachine))).
Proof.
  assert (G : forall m,
             shownMessage (error (world m)) ->
             shownMessage (error (world (play events m)))).
  { induction events as [|e events IH]; intros m H; [exact H|].
    apply IH. unfold shownMessage in *.
    destruct (proj2 (step_request_cells m e)) as [E | E];
      [now rewrite E | tauto]. }
  apply G. now left.
Qed.

Lemma resume_keeps_requests (suspended : Suspended) (w : World) :
  requests (snd (resume suspended w)) = requests w.
Proof.
  now destruct suspended as [[err|items]|full [|[chunk|err] rest]].
Qed.

Lemma resume_loading (suspended : Suspended) (w : World) :
  match fst (resume suspended w) with
  | Some _ => isLoading (snd (resume suspended w)) = isLoading w
  | None => isLoading (snd (resume suspended w)) = false
  end.
Proof.
  now destruct suspended as [[err|items]|full [|[chunk|err] rest]].
Qed.

(** The service is called once for each run that got to its first
    [await], and by nothing else: at any time the calls on record are as
    many as the runs of the generation handler that passed validation and
    had their client constructed, whatever else happened; a run whose
    constructor throws makes no call and is not suspended. *)
Theorem one_call_for_each_run (events : list Event) :
  let m := play events initialMachine in
  List.length (requests (world m)) = List.length (runs m).
Proof.
  assert (G : forall m,
             List.length (requests (world m)) = List.length (runs m) ->
             List.length (requests (world (play events m)))
             = List.length (runs (play events m))).
  { induction events as [|e events IH]; intros m H; [exact H|].
    apply IH. destruct m as [w rs]. cbn [world runs] in H.
    destruct e as [v|index|v|answer|k| | | | | ];
      unfold step, onWorld; cbn [world runs]; try exact H.
    - now rewrite (proj2 (proj2 (selectAge_keeps index w))).
    - rewrite submit_cases.
      destruct (negb (JS.truthy (name w)) || negb (JS.truthy (interests w)));
        [|destruct answer as [err|answer]]; cbn [world runs];
        [exact H | exact H |].
      unfold requests in *. cbn. rewrite !length_app. cbn. lia.
    - destruct (nth_error rs k) as [[suspended|]|]; cbn [world runs];
        try exact H.
      pose proof (resume_keeps_requests suspended w) as R.
      destruct (resume suspended w) as [next w']. cbn [world runs snd] in *.
      now rewrite R, setNth_length.
    - now rewrite (proj1 (proj2 (proj2 (proj2 (handleReadAloud_keeps w w))))).
    - now rewrite (proj1 (proj2 (proj2 (proj2 (handleStopReading_keeps w))))).
    - now rewrite (proj2 (speechSynthesis_starts_keeps w)). }
  apply G. reflexivity.
Qed.

(** The page is never left loading: whenever the loading flag is set,
    some run of the generation handler is still suspended; once every run
    has ended, the flag is cleared, whatever else happened in between. *)
Theorem loading_means_a_run_is_suspended (events : list Event) :
  let m := play events initialMachine in
  isLoading (world m) = true ->
  exists k suspended, nth_error (runs m) k = Some (Some suspended).
Proof.
  assert (G : forall m,
             (isLoading (world m) = true ->
              exists k suspended, nth_error (runs m) k = Some (Some suspended))
             -> isLoading (world (play events m)) = true ->
             exists k suspended,
               nth_error (runs (play events m)) k = Some (Some suspended)).
  { induction events as [|e events IH]; intros m H; [exact H|].
    apply IH. destruct m as [w rs]. cbn [world runs] in H.
    destruct e as [v|index|v|answer|k| | | | | ];
      unfold step, onWorld; cbn [world runs]; try exact H.
    - now rewrite (proj1 (proj2 (selectAge_keeps index w))).
    - rewrite submit_cases.
      destruct (negb (JS.truthy (name w)) || negb (JS.truthy (interests w)));
        [|destruct answer as [err|answer]]; cbn [world runs];
        [exact H | discriminate |].
      intros _. exists (List.length rs), (AtCall answer).
      now rewrite nth_error_app2, Nat.sub_diag by lia.
    - destruct (nth_error rs k) as [[suspended|]|] eqn:E; cbn [world runs];
        try exact H.
      pose proof (resume_loading suspended w) as L.
      destruct (resume suspended w) as [[next|] w'];
        cbn [world runs fst snd] in *.
      + intros _. exists k, next. apply nth_error_setNth_same.
        apply nth_error_Some. congruence.
      + congruence.
    - now rewrite (proj1 (proj2 (proj2 (handleReadAloud_keeps w w)))).
    - now rewrite (proj1 (proj2 (proj2 (handleStopReading_keeps w)))).
    - unfold isLoading.
      now rewrite (proj1 (speechSynthesis_starts_keeps w)). }
  apply G. discriminate.
Qed.

Lemma loading_means_a_run_is_suspended_witness :
  exists k suspended,
    nth_error
      (runs (play [NameInput "Lily"; InterestsInput "dragons";
                   Submit (Stream (List.map Yield onceUponATime));
                   Resume 0; Resume 0; ReadAloud]
                  initialMachine)) k
    = Some (Some suspended).
Proof.
  exact (loading_means_a_run_is_suspended
           [NameInput "Lily"; InterestsInput "dragons";
            Submit (Stream (List.map Yield onceUponATime));
            Resume 0; Resume 0; ReadAloud] eq_refl).
Defined.

(** A turn of the event loop that is not a resumption of the run at [k]
    leaves that run as it is. *)
Lemma step_keeps_run (m : Machine) (e : Event) (k : nat)
  (run : option Suspended) :
  e <> Resume k ->
  nth_error (runs m) k = Some run ->
  nth_error (runs (step m e)) k = Some run.
Proof.
  intros Hne H. destruct m as [w rs]. cbn [runs] in H.
  destruct e as [v|index|v|answer|k'| | | | | ];
    unfold step, onWorld; cbn [world runs]; try exact H.
  - destruct (submit answer w) as [[suspended|] w']; cbn [runs];
      [|exact H].
    rewrite nth_error_app1; [exact H|]. apply nth_error_Some. congruence.
  - destruct (nth_error rs k') as [[suspended|]|]; cbn [runs]; try exact H.
    destruct (resume suspended w) as [next w']. cbn [runs].
    rewrite nth_error_setNth_other; [exact H|]. congruence.
Qed.

Lemma received_skipn (responseStream : list IteratorResult) (j : nat) :
  j < List.length (received responseStream) ->
  exists chunk rest,
    skipn j responseStream = Yield chunk :: rest
    /\ firstn (S j) (received responseStream)
       = (firstn j (received responseStream) ++ [chunk])%list.
Proof.
  revert j; induction responseStream as [|[chunk|err] items IH];
    intros j H; cbn [received List.length] in H; try lia.
  destruct j as [|j].
  - now exists chunk, items.
  - destruct (IH j ltac:(lia)) as (c & rest & E1 & E2).
    exists c, rest. split; [exact E1|].
    cbn [received]. change (firstn (S (S j)) (chunk :: received items))
      with (chunk :: firstn (S j) (received items)).
    now rewrite E2.
Qed.

Lemma run_after_events (events : list Event) (m : Machine) (k : nat)
  (fullStory : string) (responseStream : list IteratorResult) :
  nth_error (runs m) k = Some (Some (InLoop fullStory responseStream)) ->
  resumes k events <= List.length (received responseStream) ->
  nth_error (runs (play events m)) k
  = Some (Some (InLoop
                  (fullStory
                   ++ JS.join (List.map text
                                 (firstn (resumes k events)
                                         (received responseStream))))
                  (skipn (resumes k events) responseStream))).
Proof.
  revert m fullStory responseStream.
  induction events as [|e events IH]; intros m fullStory items H Hj.
  - cbn. unfold JS.join. cbn. now rewrite append_nil_r.
  - change (play (e :: events) m) with (play events (step m e)).
    assert (Other : e <> Resume k ->
              resumes k (e :: events) = resumes k events ->
              nth_error (runs (play events (step m e))) k
              = Some (Some (InLoop
                  (fullStory
                   ++ JS.join (List.map text
                                 (firstn (resumes k (e :: events))
                                         (received items))))
                  (skipn (resumes k (e :: events)) items)))).
    { intros Hne E. rewrite E in *. apply IH; [|exact Hj].
      now apply step_keeps_run. }
    destruct e as [v|index|v|answer|k'| | | | | ];
      try (apply Other; [discriminate | reflexivity]).
    destruct (Nat.eq_dec k' k) as [->|Hk].
    2:{ apply Other; [congruence|]. cbn [resumes].
        now rewrite (proj2 (Nat.eqb_neq k' k) Hk). }
    cbn [resumes] in *. rewrite Nat.eqb_refl in *. cbn [Nat.add] in *.
    destruct (received_skipn items 0 ltac:(lia)) as (chunk & rest & E0 & _).
    cbn [skipn] in E0. subst items. cbn [received firstn skipn List.map].
    cbn [received List.length] in Hj.
    rewrite (IH (step m (Resume k)) (fullStory ++ text chunk) rest);
      [| | lia].
    + unfold JS.join. cbn [fold_right]. now rewrite append_assoc.
    + destruct m as [w rs]. cbn [runs] in H. unfold step.
      cbn [runs world]. rewrite H.
      cbn [resume runs]. apply nth_error_setNth_same.
      apply nth_error_Some. congruence.
Qed.

(** A run appends its own chunks, whatever happens in between. Take a run
    that is suspended in its loop, and any events after that, in any
    order: input, speech, other runs started and resumed. As long as the
    stream has chunks left for it, the accumulator of the run is what it
    was followed by the chunks the run was resumed with so far, in order,
    and right after each of its resumptions the story shown is exactly
    that text. *)
Theorem run_appends_its_chunks_amid_events (events : list Event)
  (m : Machine) (k : nat) (fullStory : string)
  (responseStream : list IteratorResult) :
  nth_error (runs m) k = Some (Some (InLoop fullStory responseStream)) ->
  resumes k events < List.length (received responseStream) ->
  let text_so_far j :=
    fullStory
    ++ JS.join (List.map text (firstn j (received responseStream))) in
  nth_error (runs (play events m)) k
  = Some (Some (InLoop (text_so_far (resumes k events))
                       (skipn (resumes k events) responseStream)))
  /\ story (world (play (events ++ [Resume k]) m))
     = text_so_far (S (resumes k events)).
Proof.
  intros H Hj text_so_far.
  pose proof (run_after_events events m k fullStory responseStream H
                ltac:(lia)) as R.
  split; [exact R|].
  rewrite play_app. cbn [play fold_left].
  destruct (received_skipn responseStream (resumes k events) Hj)
    as (chunk & rest & E1 & E2).
  rewrite E1 in R. unfold step. rewrite R. cbn [resume world].
  unfold text_so_far. rewrite E2, map_app, join_app.
  unfold story at 1. cbn. unfold JS.join at 2. cbn.
  now rewrite append_nil_r, append_assoc.
Qed.

Lemma run_appends_its_chunks_amid_events_witness :
  story (world
           (play ([NameInput "Lily"; InterestsInput "dragons";
                   Submit (Stream (List.map Yield onceUponATime));
                   Resume 0]
                  ++ [Resume 0; NameInput "Lila";
                      Submit (Stream [Yield {| text := "Far away" |}]);
                      Resume 1; Resume 1; UtteranceError]
                  ++ [Resume 0])
                 initialMachine))
  = "Once upon ".
Proof.
  rewrite play_app.
  exact (proj2 (run_appends_its_chunks_amid_events
                  [Resume 0; NameInput "Lila";
                   Submit (Stream [Yield {| text := "Far away" |}]);
                   Resume 1; Resume 1; UtteranceError]
                  (play [NameInput "Lily"; InterestsInput "dragons";
                         Submit (Stream (List.map Yield onceUponATime));
                         Resume 0] initialMachine)
                  0 "" (List.map Yield onceUponATime)
                  eq_refl ltac:(cbn; lia))).
Defined.

(** Only the generation handler writes the story: typing in the form,
    choosing an age, reading aloud, stopping, and what the speech engine
    calls back leave the story, the loading flag, the calls on record and
    the suspended runs as they are. *)
Theorem only_runs_write_the_story (m : Machine) (e : Event) :
  (forall answer, e <> Submit answer) -> (forall k, e <> Resume k) ->
  story (world (step m e)) = story (world m)
  /\ isLoading (world (step m e)) = isLoading (world m)
  /\ requests (world (step m e)) = requests (world m)
  /\ runs (step m e) = runs m.
Proof.
  intros Hs Hr. destruct m as [w rs].
  destruct e as [v|index|v|answer|k| | | | | ];
    unfold step, onWorld; cbn [world runs]; try now repeat split.
  - destruct (selectAge_keeps index w) as (_ & -> & ->).
    repeat split.
    unfold selectAge. destruct (nth_error ageOptions index) as [chosen|];
      [|reflexivity].
    now destruct (JS.Number (JS.numberToString (option_value chosen))).
  - now destruct (Hs answer).
  - now destruct (Hr k).
  - destruct (handleReadAloud_keeps w w) as (_ & _ & -> & -> & ->).
    now repeat split.
  - destruct (handleStopReading_keeps w) as (_ & _ & -> & -> & ->).
    now repeat split.
  - destruct (speechSynthesis_starts_keeps w) as (E & ->).
    unfold story, isLoading. rewrite E. now repeat split.
Qed.

Lemma only_runs_write_the_story_witness :
  story (handleReadAloud lilyWithStory lilyWithStory) = story lilyWithStory.
Proof.
  exact (proj1 (only_runs_write_the_story
                  {| world := lilyWithStory; runs := [None] |} ReadAloud
                  ltac:(discriminate) ltac:(discriminate))).
Defined.
